(** * Cluster metrics of a vertex cover (circulo/metrics/cover.py)

    A shallow embedding of the metric functions that [cover.py] attaches to
    igraph's [Cover] class, and the properties of the boundary-edge
    partitioning and of the metric formulas built on it.

    Conventions of the embedding.
    - Python integers are [nat] or [Z]; a Python float is a [pyfloat]: an
      exact rational ([Qc]), an infinity or the not-a-number value.  Rounding
      is not modelled.  [/] is Python 3's true division.
    - A Python exception is a [Raise] result; a [for] loop that appends to a
      list is [for_each], a loop that updates a variable is [for_fold].
    - The graph and the cover are igraph objects: [Graph] keeps the vertex
      count, the edge list and the directedness flag, [Cover] the graph and
      the list of clusters. *)

From Stdlib Require Import ZArith QArith Qcanon Lia.
From stdpp Require Import base decidable option numbers list.

Local Open Scope nat_scope.

(** ** Exceptions and results *)

Inductive exn : Type :=
| ZeroDivisionError
| IndexError
| ValueError
| TypeError.

Inductive result (A : Type) : Type :=
| Ok (a : A)
| Raise (e : exn).
Arguments Ok {A} a.
Arguments Raise {A} e.

Global Instance result_ret : MRet result := λ A a, Ok a.

Global Instance result_bind : MBind result := λ A B k m,
  match m with
  | Ok a => k a
  | Raise e => Raise e
  end.

(** [rv = []; for x in xs: rv += [f x]] *)
Fixpoint for_each {A B : Type} (f : A → result B) (xs : list A) : result (list B) :=
  match xs with
  | [] => Ok []
  | x :: xs' => y ← f x; ys ← for_each f xs'; Ok (y :: ys)
  end.

(** [for x in xs: s = f s x] *)
Fixpoint for_fold {S A : Type} (f : S → A → result S) (xs : list A) (s : S) : result S :=
  match xs with
  | [] => Ok s
  | x :: xs' => s' ← f s x; for_fold f xs' s'
  end.

(** [l[i]], which raises [IndexError] out of range. *)
Definition getitem {A : Type} (l : list A) (i : nat) : result A :=
  match l !! i with
  | Some x => Ok x
  | None => Raise IndexError
  end.

(** ** Floats *)

Inductive pyfloat : Type :=
| Fin (q : Qc)
| PosInf
| NegInf
| NaN.

Definition of_nat (n : nat) : Qc := Qc_of_Z (Z.of_nat n).

(** [a / b] on Python numbers: a zero divisor raises. *)
Definition truediv (a b : Qc) : result pyfloat :=
  if decide (b = 0%Qc) then Raise ZeroDivisionError else Ok (Fin (a / b)%Qc).

(** [a / b] where [a] is a numpy float64: a zero divisor gives nan or an
    infinity (with a warning), it does not raise. *)
Definition np_truediv (a : pyfloat) (b : Qc) : pyfloat :=
  match a with
  | Fin q =>
      if decide (b = 0%Qc) then
        if decide (0 < q)%Qc then PosInf
        else if decide (q < 0)%Qc then NegInf else NaN
      else Fin (q / b)%Qc
  | PosInf => if decide (b < 0)%Qc then NegInf else PosInf
  | NegInf => if decide (b < 0)%Qc then PosInf else NegInf
  | NaN => NaN
  end.

(** [a > b] on floats: every comparison with nan is false. *)
Definition float_gt (a b : pyfloat) : bool :=
  match a, b with
  | NaN, _ | _, NaN => false
  | PosInf, PosInf => false
  | PosInf, _ => true
  | _, PosInf => false
  | NegInf, _ => false
  | Fin _, NegInf => true
  | Fin x, Fin y => bool_decide (y < x)%Qc
  end.

(** Python's [max] of a list: the first item, replaced by every later item
    that compares greater; [ValueError] on the empty list. *)
Definition py_max (l : list pyfloat) : result pyfloat :=
  match l with
  | [] => Raise ValueError
  | x :: l' => Ok (fold_left (λ m y, if float_gt y m then y else m) l' x)
  end.

(** [a + b] on floats. *)
Definition float_add (a b : pyfloat) : pyfloat :=
  match a, b with
  | NaN, _ | _, NaN => NaN
  | Fin x, Fin y => Fin (x + y)%Qc
  | PosInf, NegInf | NegInf, PosInf => NaN
  | PosInf, _ | _, PosInf => PosInf
  | NegInf, _ | _, NegInf => NegInf
  end.

Definition is_nan (a : pyfloat) : bool :=
  match a with NaN => true | _ => false end.

(** [nansum(l)]: the sum of the entries that are not nan, a numpy float64. *)
Definition nansum (l : list pyfloat) : pyfloat :=
  fold_left float_add (filter (λ a, is_nan a = false) l) (Fin 0%Qc).

(** ** Graphs and covers *)

Record Edge : Type := mkEdge { index : nat; source : nat; target : nat }.

Global Instance Edge_eq_dec : EqDecision Edge.
Proof. solve_decision. Defined.

Record Graph : Type := mkGraph {
  vcount : nat;
  get_edgelist : list (nat * nat);
  is_directed : bool
}.

Definition ecount (g : Graph) : nat := length (get_edgelist g).

(** [g.es()]: the edge objects, in edge-id order. *)
Definition es (g : Graph) : list Edge :=
  imap (λ i st, mkEdge i st.1 st.2) (get_edgelist g).

(** [g.degree()]: per vertex, the number of edge ends at it (a self-loop
    counts twice). *)
Definition degree_in (el : list (nat * nat)) (v : nat) : nat :=
  length (filter (λ st, st.1 = v) el) + length (filter (λ st, st.2 = v) el).

Definition degree (g : Graph) : list nat :=
  map (degree_in (get_edgelist g)) (seq 0 (vcount g)).

Record Cover : Type := mkCover {
  graph : Graph;
  clusters : list (list nat)
}.

(** [len(cover)] and [cover.size(i)] *)
Definition len (c : Cover) : nat := length (clusters c).

Definition size (c : Cover) (i : nat) : result nat :=
  cl ← getitem (clusters c) i; Ok (length cl).

(** [cover.membership]: for each vertex the ids of the clusters that list
    it, in cluster order (once per listing). *)
Definition membership_of (cls : list (list nat)) (v : nat) : list nat :=
  mjoin (imap (λ idx cl, (λ _, idx) <$> filter (λ x, x = v) cl) cls).

Definition membership (c : Cover) : list (list nat) :=
  map (membership_of (clusters c)) (seq 0 (vcount (graph c))).

(** [frozenset(m1).isdisjoint(frozenset(m2))] *)
Definition isdisjoint (m1 m2 : list nat) : bool :=
  bool_decide (Forall (λ cid, cid ∉ m2) m1).

(** [cover.crossing()], the per-edge flags of the graph library (igraph's
    [VertexCover.crossing]): an edge is flagged when the membership sets of
    its two endpoints are disjoint, that is, when no cluster holds both. *)
Definition crossing (c : Cover) : result (list bool) :=
  for_each (λ st : nat * nat,
    m1 ← getitem (membership c) st.1;
    m2 ← getitem (membership c) st.2;
    Ok (isdisjoint m1 m2)) (get_edgelist (graph c)).

(** [cover.subgraph(i)]: the subgraph induced by the vertices of cluster
    [i], renumbered in increasing order of their ids. *)
Definition subgraph_vertices (g : Graph) (cl : list nat) : list nat :=
  filter (λ v, v ∈ cl) (seq 0 (vcount g)).

Fixpoint index_of (vs : list nat) (v : nat) : nat :=
  match vs with
  | [] => 0
  | x :: vs' => if decide (x = v) then 0 else S (index_of vs' v)
  end.

Definition induced_subgraph (g : Graph) (cl : list nat) : Graph :=
  let vs := subgraph_vertices g cl in
  mkGraph (length vs)
    (map (λ st : nat * nat, (index_of vs st.1, index_of vs st.2))
       (filter (λ st : nat * nat, st.1 ∈ vs ∧ st.2 ∈ vs) (get_edgelist g)))
    (is_directed g).

Definition subgraph (c : Cover) (i : nat) : result Graph :=
  cl ← getitem (clusters c) i; Ok (induced_subgraph (graph c) cl).

(** ** The boundary-edge partitioning *)

(** [array_of_sets[cluster_id] += [edge]] *)
Definition append_edge (edge : Edge) (array_of_sets : list (list Edge)) (cluster_id : nat)
  : result (list (list Edge)) :=
  s ← getitem array_of_sets cluster_id;
  Ok (<[cluster_id := s ++ [edge]]> array_of_sets).

Definition crossing_edges (c : Cover) : result (list Edge) :=
  cr ← crossing c;
  Ok ((filter (λ a : bool * Edge, a.1 = true) (zip cr (es (graph c)))).*2).

(** [external_edges(cover)] *)
Definition external_edges (c : Cover) : result (list (list Edge)) :=
  let array_of_sets := (λ _, []) <$> clusters c in
  edges ← crossing_edges c;
  for_fold (λ array_of_sets edge,
    ms ← getitem (membership c) (source edge);
    membership ←
      (if is_directed (graph c) then Ok [ms]
       else mt ← getitem (membership c) (target edge); Ok [ms; mt]);
    for_fold (λ array_of_sets node_membership,
      for_fold (append_edge edge) node_membership array_of_sets)
      membership array_of_sets)
    edges array_of_sets.

(** ** The metric calculators *)

Definition of_Z (z : Z) : Qc := Qc_of_Z z.

(** [expansion(cover)] *)
Definition expansion (c : Cover) : result (list pyfloat) :=
  external_edges ← external_edges c;
  for_each (λ i,
    size_i ← size c i;
    ee ← getitem external_edges i;
    truediv (1 * of_nat (length ee)) (of_nat size_i))
    (seq 0 (len c)).

(** [cut_ratio(cover)] *)
Definition cut_ratio (c : Cover) : result (list pyfloat) :=
  external_edges ← external_edges c;
  for_each (λ i,
    size_i ← size c i;
    let size_g := vcount (graph c) in
    ee ← getitem external_edges i;
    truediv (1 * of_nat (length ee))
      (of_Z (Z.of_nat size_i * (Z.of_nat size_g - Z.of_nat size_i))))
    (seq 0 (len c)).

(** [conductance(cover)] *)
Definition conductance (c : Cover) : result (list pyfloat) :=
  external_edges ← external_edges c;
  for_each (λ i,
    sg ← subgraph c i;
    let int_edges_cnt := ecount sg in
    ee ← getitem external_edges i;
    let ext_edges_cnt := length ee in
    truediv (of_nat ext_edges_cnt) (of_nat (2 * int_edges_cnt + ext_edges_cnt)))
    (seq 0 (len c)).

(** [separability(cover)] *)
Definition separability (c : Cover) : result (list pyfloat) :=
  external_edges ← external_edges c;
  for_each (λ i,
    sg ← subgraph c i;
    let int_edges_cnt := ecount sg in
    ee ← getitem external_edges i;
    let ext_edges_cnt := length ee in
    truediv (1 * of_nat int_edges_cnt) (of_nat ext_edges_cnt))
    (seq 0 (len c)).

(** [normalized_cut(cover)]: the conductance list, updated in place. *)
Definition normalized_cut (c : Cover) : result (list pyfloat) :=
  rv ← conductance c;
  external_edges ← external_edges c;
  for_fold (λ rv i,
    sg ← subgraph c i;
    let int_edges_cnt := ecount sg in
    ee ← getitem external_edges i;
    let ext_edges_cnt := length ee in
    let tot_edge_cnt := ecount (graph c) in
    old ← getitem rv i;
    x ← truediv (of_nat ext_edges_cnt)
          (of_Z (2 * (Z.of_nat tot_edge_cnt - Z.of_nat int_edges_cnt)
                 + Z.of_nat ext_edges_cnt));
    Ok (<[i := float_add old x]> rv))
    (seq 0 (len c)) rv.

(** The block shared by the three out-degree-fraction functions: the
    boundary edges of cluster [i] counted per vertex, each edge at its
    source when the source is listed in cluster [i], else at its target. *)
Definition credit_edge (c : Cover) (i : nat) (ext_edge_per_node : list Qc) (edge : Edge)
  : result (list Qc) :=
  ms ← getitem (membership c) (source edge);
  let node_index := if decide (i ∈ ms) then source edge else target edge in
  old ← getitem ext_edge_per_node node_index;
  Ok (<[node_index := (old + 1)%Qc]> ext_edge_per_node).

Definition ext_edge_per_node (c : Cover) (i : nat) (ee : list Edge) : result (list Qc) :=
  for_fold (credit_edge c i) ee (replicate (vcount (graph c)) 0%Qc).

(** [pair[0]/pair[1] if pair[1] != 0 else float('nan')] *)
Definition ratio (pair : Qc * nat) : result pyfloat :=
  if decide (pair.2 ≠ 0) then truediv pair.1 (of_nat pair.2) else Ok NaN.

Definition ratios (c : Cover) (i : nat) (ee : list Edge) : result (list pyfloat) :=
  ext_edge_per_node ← ext_edge_per_node c i ee;
  let degree_per_node := degree (graph c) in
  for_each ratio (zip ext_edge_per_node degree_per_node).

(** [maximum_out_degree_fraction(cover)] *)
Definition maximum_out_degree_fraction (c : Cover) : result (list pyfloat) :=
  external_edges ← external_edges c;
  for_each (λ i,
    ee ← getitem external_edges i;
    ratios ← ratios c i ee;
    py_max ratios)
    (seq 0 (len c)).

(** [average_out_degree_fraction(cover)] *)
Definition average_out_degree_fraction (c : Cover) : result (list pyfloat) :=
  external_edges ← external_edges c;
  for_each (λ i,
    ee ← getitem external_edges i;
    ratios ← ratios c i ee;
    sg ← subgraph c i;
    Ok (np_truediv (nansum ratios) (of_nat (vcount sg))))
    (seq 0 (len c)).

(** [pair[0] > pair[1]/2.0] *)
Definition flake_test (pair : Qc * nat) : bool :=
  bool_decide (of_nat pair.2 / 2 < pair.1)%Qc.

(** [flake_out_degree_fraction(cover)] *)
Definition flake_out_degree_fraction (c : Cover) : result (list pyfloat) :=
  external_edges ← external_edges c;
  for_each (λ i,
    ee ← getitem external_edges i;
    ext_edge_per_node ← ext_edge_per_node c i ee;
    let degree_per_node := degree (graph c) in
    let flake := map flake_test (zip ext_edge_per_node degree_per_node) in
    sg ← subgraph c i;
    truediv (of_nat (length (filter (λ b, b = true) flake))) (of_nat (vcount sg)))
    (seq 0 (len c)).

(** ** The aggregator *)

(** [compute_metrics] and [fomd] read and write two attributes: the report
    cached on the graph ([cover.graph.metrics]) and the one cached on the
    cover ([cover.metrics]).  A computation takes the object and returns the
    object it leaves behind together with its result or exception. *)

Section aggregator.
(** The metrics facility of the graph, which is not among the sources: the
    report it computes for a graph, and the entry
    ['Degree Statistics']['Median'] of such a report. *)
Context {GraphMetrics : Type}.
Context (graph_metrics_of : Graph → GraphMetrics).
Context (median_of : GraphMetrics → pyfloat).

Record Report : Type := mkReport {
  Fraction_over_a_Median_Degree : list pyfloat;
  Expansion : list pyfloat;
  Cut_Ratio : list pyfloat;
  Conductance : list pyfloat;
  Normalized_Cut : list pyfloat;
  Maximum_Out_Degree_Fraction : list pyfloat;
  Average_Out_Degree_Fraction : list pyfloat;
  Flake_Out_Degree_Fraction : list pyfloat;
  Separability : list pyfloat;
  Subgraphs : list GraphMetrics
}.

Record CoverObj : Type := mkCoverObj {
  cover_of : Cover;
  graph_metrics : option GraphMetrics;
  metrics : option Report
}.

Definition M (A : Type) : Type := CoverObj → CoverObj * result A.

Definition ret {A} (a : A) : M A := λ o, (o, Ok a).

Definition bindM {A B} (m : M A) (k : A → M B) : M B := λ o,
  match m o with
  | (o', Ok a) => k a o'
  | (o', Raise e) => (o', Raise e)
  end.

(** A function of the cover that has no effect on the two attributes. *)
Definition pure {A} (f : Cover → result A) : M A := λ o, (o, f (cover_of o)).

(** Modelled from the spec: [cover.graph.compute_metrics(refresh=False)],
    the compute-and-attach entry point of the graph, which is not among the
    sources.  A cached report is kept (the cache is invalidated only by
    explicit recomputation); without one the report of the facility is
    computed and attached.  The report is handed to the caller, who reads
    [cover.graph.metrics] next. *)
Definition graph_compute_metrics : M GraphMetrics := λ o,
  match graph_metrics o with
  | Some gm => (o, Ok gm)
  | None =>
      let gm := graph_metrics_of (graph (cover_of o)) in
      (mkCoverObj (cover_of o) (Some gm) (metrics o), Ok gm)
  end.

(** [cover.metrics = report] *)
Definition set_metrics (r : Report) : M unit := λ o,
  (mkCoverObj (cover_of o) (graph_metrics o) (Some r), Ok tt).

(** [sum(1.0 for v in subgraph.degree() if v > median)/subgraph.vcount()] *)
Definition fomd_at (median : pyfloat) (c : Cover) (i : nat) : result pyfloat :=
  subgraph ← subgraph c i;
  truediv
    (of_nat (length (filter (λ v, float_gt (Fin (of_nat v)) median = true)
                       (degree subgraph))))
    (of_nat (vcount subgraph)).

(** [fomd(cover)] *)
Definition fomd : M (list pyfloat) :=
  bindM graph_compute_metrics (λ g_metrics,
  let median := median_of g_metrics in
  pure (λ c, for_each (fomd_at median c) (seq 0 (len c)))).

(** [cover.metrics['Subgraphs'] += [sg.metrics]], for a subgraph that was
    just extracted and has no cached report. *)
Definition add_subgraph (c : Cover) (r : Report) (i : nat) : result Report :=
  sg ← subgraph c i;
  Ok (mkReport (Fraction_over_a_Median_Degree r) (Expansion r) (Cut_Ratio r)
        (Conductance r) (Normalized_Cut r) (Maximum_Out_Degree_Fraction r)
        (Average_Out_Degree_Fraction r) (Flake_Out_Degree_Fraction r)
        (Separability r) (Subgraphs r ++ [graph_metrics_of sg])).

(** The loop over the subgraphs updates the report held by the cover; an
    exception leaves the report as far as it got. *)
Fixpoint add_subgraphs (ids : list nat) : M unit :=
  match ids with
  | [] => ret tt
  | i :: is' => λ o,
      match metrics o with
      | None => (o, Raise TypeError)
      | Some r =>
          match add_subgraph (cover_of o) r i with
          | Ok r' => bindM (set_metrics r') (λ _, add_subgraphs is') o
          | Raise e => (o, Raise e)
          end
      end
  end.

(** [compute_metrics(cover)] *)
Definition compute_metrics : M unit :=
  bindM graph_compute_metrics (λ g_metrics,
  bindM fomd (λ m_fomd,
  bindM (pure expansion) (λ m_expansion,
  bindM (pure cut_ratio) (λ m_cut_ratio,
  bindM (pure conductance) (λ m_conductance,
  bindM (pure normalized_cut) (λ m_normalized_cut,
  bindM (pure maximum_out_degree_fraction) (λ m_max,
  bindM (pure average_out_degree_fraction) (λ m_avg,
  bindM (pure flake_out_degree_fraction) (λ m_flake,
  bindM (pure separability) (λ m_separability,
  bindM (set_metrics
           (mkReport m_fomd m_expansion m_cut_ratio m_conductance
              m_normalized_cut m_max m_avg m_flake m_separability [])) (λ _,
  bindM (pure (λ c, Ok (len c))) (λ n,
  add_subgraphs (seq 0 n))))))))))))).

(** The nine calculators, in the order of the dictionary display. *)
Definition calculators (gm : GraphMetrics) (c : Cover) : result Report :=
  m_fomd ← for_each (fomd_at (median_of gm) c) (seq 0 (len c));
  m_expansion ← expansion c;
  m_cut_ratio ← cut_ratio c;
  m_conductance ← conductance c;
  m_normalized_cut ← normalized_cut c;
  m_max ← maximum_out_degree_fraction c;
  m_avg ← average_out_degree_fraction c;
  m_flake ← flake_out_degree_fraction c;
  m_separability ← separability c;
  Ok (mkReport m_fomd m_expansion m_cut_ratio m_conductance
        m_normalized_cut m_max m_avg m_flake m_separability []).

End aggregator.

(** ** Examples *)

Module Examples.

(** The undirected triangle with the clusters {0,1} and {1,2}. *)
Definition triangle : Cover :=
  mkCover (mkGraph 3 [(0, 1); (1, 2); (0, 2)] false) [[0; 1]; [1; 2]].

(** One undirected edge whose two endpoints share cluster 0. *)
Definition shared_edge : Cover :=
  mkCover (mkGraph 2 [(0, 1)] false) [[0; 1]; [0]].

(** Vertex 0 is isolated; the edge 1-2 joins the two clusters. *)
Definition isolated_first : Cover :=
  mkCover (mkGraph 3 [(1, 2)] false) [[1]; [2]].

(** A single isolated vertex as its own cluster. *)
Definition lone_vertex : Cover :=
  mkCover (mkGraph 1 [] false) [[0]].

(** An empty cluster next to the cluster {0}, on two joined vertices. *)
Definition with_empty_cluster : Cover :=
  mkCover (mkGraph 2 [(0, 1)] false) [[]; [0]].

(** Two separate edges, each its own cluster. *)
Definition two_pairs : Cover :=
  mkCover (mkGraph 4 [(0, 1); (2, 3)] false) [[0; 1]; [2; 3]].

(** Two joined vertices, each its own cluster. *)
Definition joined_pair : Cover :=
  mkCover (mkGraph 2 [(0, 1)] false) [[0]; [1]].

End Examples.

(** ** The boundary-edge algorithm as the specification words it *)

Module Spec.

(** Step 1: an edge is a crossing edge when the membership lists of its
    endpoints are not identical. *)
Definition is_crossing (c : Cover) (e : Edge) : bool :=
  bool_decide (membership_of (clusters c) (source e)
               ≠ membership_of (clusters c) (target e)).

(** Step 2: the membership list of the source, and that of the target if
    the graph is undirected. *)
Definition collected (c : Cover) (e : Edge) : list (list nat) :=
  membership_of (clusters c) (source e)
  :: (if is_directed (graph c) then []
      else [membership_of (clusters c) (target e)]).

(** Step 3: the edge is appended to the set of every cluster id of every
    collected list. *)
Definition appended (c : Cover) (i : nat) (e : Edge) : list Edge :=
  ml ← collected c e; cid ← ml; if decide (cid = i) then [e] else [].

Definition boundary_edges (c : Cover) (i : nat) : list Edge :=
  e ← filter (λ e, is_crossing c e = true) (es (graph c)); appended c i e.

End Spec.

(** ** Well-formed inputs and the quantities of the statements *)

(** The endpoints of every edge are vertices of the graph. *)
Definition wf_graph (g : Graph) : Prop :=
  Forall (λ st : nat * nat, st.1 < vcount g ∧ st.2 < vcount g) (get_edgelist g).

Global Instance wf_graph_dec g : Decision (wf_graph g).
Proof. unfold wf_graph. apply _. Defined.

(** The flag that [crossing()] gives an edge. *)
Definition is_crossing (c : Cover) (e : Edge) : bool :=
  isdisjoint (membership_of (clusters c) (source e))
    (membership_of (clusters c) (target e)).

(** The flagged edges, each listed for cluster [i] as the steps 2 and 3 of the
    specification say. *)
Definition listed_edges (c : Cover) (i : nat) : list Edge :=
  e ← filter (λ e, is_crossing c e = true) (es (graph c)); Spec.appended c i e.

(** What the code computes for cluster [i]: its boundary edges, their number
    ext(i) and the number int(i) of edges of its induced subgraph. *)
Definition boundary_edges (c : Cover) (i : nat) : list Edge :=
  match external_edges c with
  | Ok array_of_sets => default [] (array_of_sets !! i)
  | Raise _ => []
  end.

Definition ext (c : Cover) (i : nat) : nat := length (boundary_edges c i).

Definition int (c : Cover) (i : nat) : nat :=
  match subgraph c i with
  | Ok sg => ecount sg
  | Raise _ => 0
  end.

(** Cluster [i], its size, and the number of vertices of its subgraph. *)
Definition cluster (c : Cover) (i : nat) : list nat := default [] (clusters c !! i).

Definition size_of (c : Cover) (i : nat) : nat := length (cluster c i).

Definition sub_vcount (c : Cover) (i : nat) : nat :=
  length (subgraph_vertices (graph c) (cluster c i)).

(** The degree of a vertex. *)
Definition degree_of (c : Cover) (v : nat) : nat :=
  degree_in (get_edgelist (graph c)) v.

(** [edge.source if i in cover.membership[edge.source] else edge.target] *)
Definition node_index (c : Cover) (i : nat) (e : Edge) : nat :=
  if decide (i ∈ membership_of (clusters c) (source e)) then source e else target e.

(** The number of edges of [ee] that are counted at vertex [v]. *)
Definition credit (c : Cover) (i : nat) (ee : list Edge) (v : nat) : nat :=
  length (filter (λ e, node_index c i e = v) ee).

Definition credit_of (c : Cover) (i v : nat) : nat :=
  credit c i (boundary_edges c i) v.

(** Every cluster has a boundary edge, holds a vertex of the graph and does
    not have as many entries as the graph has vertices. *)
Definition reportable (c : Cover) : Prop :=
  ∀ i, i < len c →
    0 < ext c i ∧ 0 < sub_vcount c i ∧ size_of c i ≠ vcount (graph c).

(** ** The loop bodies in terms of these quantities *)

(** The body of the loop of [external_edges] over the crossing edges. *)
Definition per_edge (c : Cover) (array_of_sets : list (list Edge)) (edge : Edge)
  : result (list (list Edge)) :=
  ms ← getitem (membership c) (source edge);
  membership ←
    (if is_directed (graph c) then Ok [ms]
     else mt ← getitem (membership c) (target edge); Ok [ms; mt]);
  for_fold (λ array_of_sets node_membership,
    for_fold (append_edge edge) node_membership array_of_sets)
    membership array_of_sets.

Definition expansion_at (c : Cover) (i : nat) : result pyfloat :=
  truediv (1 * of_nat (ext c i)) (of_nat (size_of c i)).

Definition cut_ratio_at (c : Cover) (i : nat) : result pyfloat :=
  truediv (1 * of_nat (ext c i))
    (of_Z (Z.of_nat (size_of c i)
           * (Z.of_nat (vcount (graph c)) - Z.of_nat (size_of c i)))).

Definition conductance_at (c : Cover) (i : nat) : result pyfloat :=
  truediv (of_nat (ext c i)) (of_nat (2 * int c i + ext c i)).

Definition separability_at (c : Cover) (i : nat) : result pyfloat :=
  truediv (1 * of_nat (int c i)) (of_nat (ext c i)).

(** The second term of the normalized cut. *)
Definition second_term (c : Cover) (i : nat) : result pyfloat :=
  truediv (of_nat (ext c i))
    (of_Z (2 * (Z.of_nat (ecount (graph c)) - Z.of_nat (int c i))
           + Z.of_nat (ext c i))).

(** [rv[i] += x] where [x] is the value of [f i]. *)
Definition increase_at (f : nat → result pyfloat) (rv : list pyfloat) (i : nat)
  : result (list pyfloat) :=
  old ← getitem rv i; x ← f i; Ok (<[i := float_add old x]> rv).

(** [rv] after the entries [0 .. length xs - 1] were increased by [xs]. *)
Definition increased (rv xs : list pyfloat) : list pyfloat :=
  imap (λ j old, match xs !! j with Some x => float_add old x | None => old end) rv.

(** The out-degree fraction of vertex [v] for cluster [i]. *)
Definition ratio_at (c : Cover) (i v : nat) : pyfloat :=
  if decide (degree_of c v ≠ 0)
  then Fin (of_nat (credit_of c i v) / of_nat (degree_of c v))%Qc
  else NaN.

(** The number of vertices that pass the flake test for cluster [i]. *)
Definition flake_count (c : Cover) (i : nat) : nat :=
  length (filter (λ v, flake_test (of_nat (credit_of c i v), degree_of c v) = true)
            (seq 0 (vcount (graph c)))).

(** A float that is not-a-number or lies between 0 and [b]. *)
Definition bounded_by (x : pyfloat) (b : nat) : Prop :=
  x = NaN ∨ ∃ q, x = Fin q ∧ (0 ≤ q ≤ of_nat b)%Qc.

(** ** Decision by evaluation *)

Global Instance exn_eq_dec : EqDecision exn.
Proof. solve_decision. Defined.

Global Instance pyfloat_eq_dec : EqDecision pyfloat.
Proof. solve_decision. Defined.

Global Instance result_eq_dec {A} `{EqDecision A} : EqDecision (result A).
Proof. solve_decision. Defined.

Ltac solve_wf := by apply (bool_decide_unpack _); vm_compute.

Ltac by_evaluation := apply (bool_decide_unpack _); vm_compute; exact I.

(** ** Loops *)

Section loops.
Context {A B : Type}.

Lemma for_each_ok (f : A → result B) (g : A → B) (xs : list A) :
  (∀ x, x ∈ xs → f x = Ok (g x)) → for_each f xs = Ok (g <$> xs).
Proof.
  induction xs as [|x xs IH]; intros Hf; [done|].
  simpl. rewrite Hf by left. simpl. rewrite IH; [done|].
  intros y Hy. apply Hf. by right.
Qed.

Lemma for_each_raise (f : A → result B) (e : exn) (xs : list A) :
  (∀ x, x ∈ xs → (∃ y, f x = Ok y) ∨ f x = Raise e) →
  (∃ x, x ∈ xs ∧ f x = Raise e) →
  for_each f xs = Raise e.
Proof.
  induction xs as [|x xs IH]; intros Hall [x0 [Hin Hx0]].
  - by apply elem_of_nil in Hin.
  - simpl. destruct (Hall x) as [[y Hy]|Hr]; [by left| |by rewrite Hr].
    rewrite Hy. simpl.
    apply elem_of_cons in Hin as [->|Hin]; [congruence|].
    rewrite IH; [done| |by exists x0].
    intros z Hz. apply Hall. by right.
Qed.

Lemma for_each_inv (f : A → result B) (xs : list A) (ys : list B) :
  for_each f xs = Ok ys → Forall2 (λ x y, f x = Ok y) xs ys.
Proof.
  revert ys. induction xs as [|x xs IH]; intros ys; simpl.
  - intros [= <-]. constructor.
  - destruct (f x) as [y|] eqn:Hy; simpl; [|done].
    destruct (for_each f xs) as [ys'|] eqn:Hys; simpl; [|done].
    intros [= <-]. constructor; [done|]. by apply IH.
Qed.

Lemma for_each_total (f : A → result B) (P : A → B → Prop) (xs : list A) :
  (∀ x, x ∈ xs → ∃ y, f x = Ok y ∧ P x y) →
  ∃ ys, for_each f xs = Ok ys ∧ Forall2 P xs ys.
Proof.
  induction xs as [|x xs IH]; intros Hf.
  - exists []. split; [done|constructor].
  - destruct (Hf x) as (y & Hy & HP); [by left|].
    destruct IH as (ys & Hys & Hall); [intros z Hz; apply Hf; by right|].
    exists (y :: ys). simpl. rewrite Hy, Hys. split; [done|by constructor].
Qed.

Lemma for_each_ext (f g : A → result B) (xs : list A) :
  (∀ x, x ∈ xs → f x = g x) → for_each f xs = for_each g xs.
Proof.
  induction xs as [|x xs IH]; intros Hfg; [done|].
  simpl. rewrite Hfg by left. rewrite IH; [done|].
  intros y Hy. apply Hfg. by right.
Qed.

End loops.

Lemma bind_Ok {A B} (a : A) (k : A → result B) : (Ok a ≫= k) = k a.
Proof. done. Qed.

Lemma bind_Raise {A B} (e : exn) (k : A → result B) : (Raise e ≫= k) = Raise e.
Proof. done. Qed.

Lemma bind_ret_r {A} (m : result A) : (m ≫= Ok) = m.
Proof. by destruct m. Qed.

Lemma getitem_lookup {A} (l : list A) i x : l !! i = Some x → getitem l i = Ok x.
Proof. unfold getitem. by intros ->. Qed.

Lemma getitem_Ok {A} (l : list A) i x : getitem l i = Ok x ↔ l !! i = Some x.
Proof. unfold getitem. destruct (l !! i); naive_solver. Qed.

(** ** Membership lists *)

Lemma getitem_membership c v :
  v < vcount (graph c) → getitem (membership c) v = Ok (membership_of (clusters c) v).
Proof.
  intros Hv. apply getitem_lookup. unfold membership.
  by rewrite list_lookup_fmap, lookup_seq_lt.
Qed.

Lemma elem_of_membership_of cls v i :
  i ∈ membership_of cls v ↔ ∃ cl, cls !! i = Some cl ∧ v ∈ cl.
Proof.
  unfold membership_of. rewrite list_elem_of_join. split.
  - intros (l & Hi & Hl). apply elem_of_lookup_imap in Hl as (j & cl & -> & Hj).
    apply list_elem_of_fmap in Hi as (x & -> & Hx).
    apply list_elem_of_filter in Hx as [-> Hx]. eauto.
  - intros (cl & Hcl & Hv). eexists. split; [|by eapply elem_of_lookup_imap_2].
    apply list_elem_of_fmap. exists v. split; [done|].
    by apply list_elem_of_filter.
Qed.

Lemma membership_of_lt cls v i : i ∈ membership_of cls v → i < length cls.
Proof.
  rewrite elem_of_membership_of. intros (cl & Hcl & _). by eapply lookup_lt_Some.
Qed.

(** ** The closed form of [external_edges] *)

Lemma crossing_wf c :
  wf_graph (graph c) →
  crossing c
  = Ok ((λ st : nat * nat,
          isdisjoint (membership_of (clusters c) st.1)
            (membership_of (clusters c) st.2)) <$> get_edgelist (graph c)).
Proof.
  intros Hwf. unfold crossing. apply for_each_ok. intros st Hst.
  eapply Forall_forall in Hwf as [H1 H2]; [|done].
  by rewrite !getitem_membership.
Qed.

Lemma filter_zip_flags (P : Edge → bool) (t : nat * nat → bool)
    (h : nat → nat * nat → Edge) (el : list (nat * nat)) :
  (∀ i st, P (h i st) = t st) →
  (filter (λ a : bool * Edge, a.1 = true) (zip (t <$> el) (imap h el))).*2
  = filter (λ e, P e = true) (imap h el).
Proof.
  revert h. induction el as [|st el IH]; intros h HP; [done|].
  rewrite fmap_cons, imap_cons. cbn [zip zip_with].
  rewrite !filter_cons. cbn [fst]. rewrite HP.
  destruct (t st); simpl.
  - f_equal. apply IH. intros i st'. apply HP.
  - apply IH. intros i st'. apply HP.
Qed.

Lemma crossing_edges_wf c :
  wf_graph (graph c) →
  crossing_edges c = Ok (filter (λ e, is_crossing c e = true) (es (graph c))).
Proof.
  intros Hwf. unfold crossing_edges. rewrite crossing_wf by done. simpl.
  f_equal. unfold es. by apply filter_zip_flags.
Qed.

Lemma elem_of_es g e :
  e ∈ es g ↔ get_edgelist g !! index e = Some (source e, target e).
Proof.
  unfold es. rewrite elem_of_lookup_imap. split.
  - intros (i & [s t] & -> & Hi). done.
  - intros He. exists (index e), (source e, target e). by destruct e.
Qed.

Lemma es_in_range g e :
  wf_graph g → e ∈ es g → source e < vcount g ∧ target e < vcount g.
Proof.
  intros Hwf He%elem_of_es.
  eapply Forall_forall in Hwf; [|by eapply list_elem_of_lookup_2]. done.
Qed.

Lemma append_edge_lookup e (arr : list (list Edge)) id s :
  arr !! id = Some s → append_edge e arr id = Ok (<[id := s ++ [e]]> arr).
Proof. intros Hs. unfold append_edge. by rewrite (getitem_lookup _ _ _ Hs). Qed.

Lemma for_fold_append_edge e ids (arr : list (list Edge)) :
  Forall (λ id, id < length arr) ids →
  for_fold (append_edge e) ids arr
  = Ok (imap (λ i s, s ++ (cid ← ids; if decide (cid = i) then [e] else [])) arr).
Proof.
  revert arr. induction ids as [|id ids IH]; intros arr Hids.
  - simpl. f_equal. apply list_eq. intros i.
    rewrite list_lookup_imap. destruct (arr !! i); simpl; [|done].
    by rewrite app_nil_r.
  - apply Forall_cons in Hids as [Hid Hids].
    destruct (lookup_lt_is_Some_2 arr id Hid) as [s Hs].
    cbn [for_fold]. rewrite (append_edge_lookup _ _ _ _ Hs). simpl.
    rewrite IH by (by rewrite length_insert). f_equal.
    apply list_eq. intros i. rewrite !list_lookup_imap.
    destruct (decide (id = i)) as [->|Hne].
    + rewrite list_lookup_insert_eq, Hs by done. simpl.
      by rewrite <-app_assoc.
    + by rewrite list_lookup_insert_ne by done.
Qed.

Lemma imap_imap_app {A} (f g : nat → list A) (arr : list (list A)) :
  imap (λ i s, s ++ g i) (imap (λ i s, s ++ f i) arr)
  = imap (λ i s, s ++ (f i ++ g i)) arr.
Proof.
  apply list_eq. intros i. rewrite !list_lookup_imap.
  destruct (arr !! i); simpl; [|done]. by rewrite app_assoc.
Qed.

Lemma per_edge_closed c arr e :
  source e < vcount (graph c) → target e < vcount (graph c) →
  length arr = len c →
  per_edge c arr e = Ok (imap (λ i s, s ++ Spec.appended c i e) arr).
Proof.
  intros Hs Ht Hlen. unfold per_edge, Spec.appended, Spec.collected.
  rewrite !getitem_membership, bind_Ok by done.
  assert (∀ v (a : list (list Edge)), length a = len c →
    Forall (λ id, id < length a) (membership_of (clusters c) v)) as Hin.
  { intros v a Ha. apply Forall_forall. intros id Hid%membership_of_lt.
    rewrite Ha. done. }
  destruct (is_directed (graph c)).
  - rewrite bind_Ok. cbn [for_fold].
    rewrite for_fold_append_edge, bind_Ok by auto. f_equal.
    apply imap_ext. intros i s _. simpl. by rewrite app_nil_r.
  - rewrite !bind_Ok. cbn [for_fold].
    rewrite for_fold_append_edge, bind_Ok by auto.
    rewrite for_fold_append_edge, bind_Ok by (apply Hin; by rewrite length_imap).
    f_equal. rewrite imap_imap_app. apply imap_ext. intros i s _. simpl.
    by rewrite app_nil_r.
Qed.

Lemma for_fold_per_edge c edges arr :
  Forall (λ e, source e < vcount (graph c) ∧ target e < vcount (graph c)) edges →
  length arr = len c →
  for_fold (per_edge c) edges arr
  = Ok (imap (λ i s, s ++ (e ← edges; Spec.appended c i e)) arr).
Proof.
  revert arr. induction edges as [|e edges IH]; intros arr Hr Hlen.
  - simpl. f_equal. apply list_eq. intros i.
    rewrite list_lookup_imap. destruct (arr !! i); simpl; [|done].
    by rewrite app_nil_r.
  - apply Forall_cons in Hr as [[Hs Ht] Hr]. cbn [for_fold].
    rewrite per_edge_closed, bind_Ok by done.
    rewrite IH by (by rewrite ?length_imap). f_equal.
    apply imap_imap_app.
Qed.

Lemma external_edges_closed c :
  wf_graph (graph c) →
  external_edges c = Ok (listed_edges c <$> seq 0 (len c)).
Proof.
  intros Hwf. unfold external_edges. rewrite crossing_edges_wf, bind_Ok by done.
  change (for_fold _ ?es ?a) with (for_fold (per_edge c) es a).
  rewrite for_fold_per_edge.
  - f_equal. apply list_eq. intros i.
    rewrite list_lookup_imap, !list_lookup_fmap. unfold len.
    destruct (decide (i < length (clusters c))) as [Hi|Hi].
    + rewrite lookup_seq_lt by done.
      destruct (lookup_lt_is_Some_2 _ _ Hi) as [cl ->]. done.
    + rewrite lookup_seq_ge, lookup_ge_None_2 by lia. done.
  - apply Forall_forall. intros e [_ He]%list_elem_of_filter.
    by apply es_in_range.
  - by rewrite length_fmap.
Qed.

Lemma boundary_edges_closed c i :
  wf_graph (graph c) → i < len c → boundary_edges c i = listed_edges c i.
Proof.
  intros Hwf Hi. unfold boundary_edges. rewrite external_edges_closed by done.
  by rewrite list_lookup_fmap, lookup_seq_lt.
Qed.


Lemma elem_of_appended c i e e' :
  e' ∈ Spec.appended c i e ↔
  e' = e ∧ (i ∈ membership_of (clusters c) (source e)
            ∨ is_directed (graph c) = false
              ∧ i ∈ membership_of (clusters c) (target e)).
Proof.
  unfold Spec.appended, Spec.collected. rewrite list_elem_of_bind. split.
  - intros (ml & (cid & Hcid & Hin)%list_elem_of_bind & Hml).
    destruct (decide (cid = i)) as [->|]; [|by apply elem_of_nil in Hcid].
    apply list_elem_of_singleton in Hcid as ->. split; [done|].
    apply elem_of_cons in Hml as [->|Hml]; [by left|].
    destruct (is_directed (graph c)); [by apply elem_of_nil in Hml|].
    apply list_elem_of_singleton in Hml as ->. by right.
  - intros [-> [Hi|[Hd Hi]]].
    + eexists. split; [|by left]. apply list_elem_of_bind. exists i.
      rewrite decide_True by done. split; [by left|done].
    + eexists. split; [|right; rewrite Hd; by left].
      apply list_elem_of_bind. exists i.
      rewrite decide_True by done. split; [by left|done].
Qed.

Lemma isdisjoint_true (m1 m2 : list nat) :
  isdisjoint m1 m2 = true ↔ ∀ cid, cid ∈ m1 → cid ∉ m2.
Proof. unfold isdisjoint. by rewrite bool_decide_eq_true, Forall_forall. Qed.

Lemma is_crossing_true c e :
  is_crossing c e = true ↔
  ∀ cid, cid ∈ membership_of (clusters c) (source e) →
         cid ∉ membership_of (clusters c) (target e).
Proof. apply isdisjoint_true. Qed.

Lemma elem_of_listed_edges c i e :
  e ∈ listed_edges c i ↔
  e ∈ es (graph c)
  ∧ (∀ cid, cid ∈ membership_of (clusters c) (source e) →
            cid ∉ membership_of (clusters c) (target e))
  ∧ (i ∈ membership_of (clusters c) (source e)
     ∨ is_directed (graph c) = false
       ∧ i ∈ membership_of (clusters c) (target e)).
Proof.
  unfold listed_edges. rewrite list_elem_of_bind. split.
  - intros (e0 & [-> Hm]%elem_of_appended & [Hcr He]%list_elem_of_filter).
    rewrite is_crossing_true in Hcr. done.
  - intros (He & Hcr & Hm). exists e. split; [by apply elem_of_appended|].
    apply list_elem_of_filter. split; [|done]. by rewrite is_crossing_true.
Qed.

(** C1, as the code has it: on a graph whose edges join its own vertices,
    [external_edges] returns one collection per cluster.  The edges it lists
    are those that [crossing()] flags, the edges whose endpoints have no
    cluster in common; each of them is listed once for every occurrence of
    [i] in the membership list of its source and, only when the graph is
    undirected, of its target. *)
Theorem external_edges_listing (c : Cover) :
  wf_graph (graph c) →
  crossing c
  = Ok ((λ st : nat * nat,
          isdisjoint (membership_of (clusters c) st.1)
            (membership_of (clusters c) st.2)) <$> get_edgelist (graph c))
  ∧ external_edges c = Ok (listed_edges c <$> seq 0 (len c))
  ∧ (∀ i e, i < len c →
       e ∈ boundary_edges c i ↔
       e ∈ es (graph c)
       ∧ (∀ cid, cid ∈ membership_of (clusters c) (source e) →
                 cid ∉ membership_of (clusters c) (target e))
       ∧ (i ∈ membership_of (clusters c) (source e)
          ∨ is_directed (graph c) = false
            ∧ i ∈ membership_of (clusters c) (target e))).
Proof.
  intros Hwf. split; [by apply crossing_wf|].
  split; [by apply external_edges_closed|].
  intros i e Hi. rewrite boundary_edges_closed by done.
  apply elem_of_listed_edges.
Qed.

Lemma external_edges_listing_witness :
  wf_graph (graph Examples.triangle)
  ∧ external_edges Examples.triangle
    = Ok (listed_edges Examples.triangle <$> seq 0 (len Examples.triangle)).
Proof.
  assert (wf_graph (graph Examples.triangle)) as Hwf by solve_wf.
  split; [done|].
  apply (proj1 (proj2 (external_edges_listing Examples.triangle Hwf))).
Defined.

(** C1 as stated fails on one undirected edge 0-1 with the clusters {0,1} and
    {0}: the membership lists [0,1] and [0] of the endpoints are not
    identical, so the edge is a crossing edge for the claim and would be
    listed for both clusters ([Spec.boundary_edges]), but the endpoints share
    cluster 0, [crossing()] does not flag the edge and [external_edges] lists
    it nowhere. *)
Lemma external_edges_not_list_inequality :
  membership_of (clusters Examples.shared_edge) 0
  ≠ membership_of (clusters Examples.shared_edge) 1
  ∧ crossing Examples.shared_edge = Ok [false]
  ∧ external_edges Examples.shared_edge = Ok [[]; []]
  ∧ Spec.boundary_edges Examples.shared_edge 0 ≠ []
  ∧ Spec.boundary_edges Examples.shared_edge 1 ≠ [].
Proof. repeat split; by vm_compute. Qed.

(** ** How often an edge is listed *)

Lemma length_bind_decide {A} (e : A) (i : nat) (ml : list nat) :
  length (ml ≫= (λ cid, if decide (cid = i) then [e] else []))
  = length (filter (λ cid, cid = i) ml).
Proof.
  induction ml as [|x ml IH]; [done|].
  rewrite bind_cons, length_app, filter_cons, IH.
  by destruct (decide (x = i)).
Qed.

Lemma filter_all {A} (P : A → Prop) `{∀ x, Decision (P x)} (l : list A) :
  Forall P l → filter P l = l.
Proof.
  induction 1 as [|x l Hx Hl IH]; [done|].
  by rewrite filter_cons_True, IH.
Qed.

Lemma filter_none {A} (P : A → Prop) `{∀ x, Decision (P x)} (l : list A) :
  Forall (λ x, ¬ P x) l → filter P l = [].
Proof.
  induction 1 as [|x l Hx Hl IH]; [done|].
  by rewrite filter_cons_False, IH.
Qed.

Lemma length_filter_eq_NoDup (l : list nat) (v : nat) :
  NoDup l → length (filter (λ x, x = v) l) ≤ 1.
Proof.
  induction 1 as [|x l Hx Hl IH]; [simpl; lia|].
  rewrite filter_cons. destruct (decide (x = v)) as [->|]; [|done].
  rewrite filter_none; [simpl; lia|].
  apply Forall_forall. by intros y Hy ->.
Qed.

Lemma count_membership_from (g : nat → nat) cls v i :
  Inj (=) (=) g →
  length (filter (λ cid, cid = g i)
            (mjoin (imap (λ idx (cl : list nat),
                            (λ _, g idx) <$> filter (λ x, x = v) cl) cls)))
  = match cls !! i with
    | Some cl => length (filter (λ x, x = v) cl)
    | None => 0
    end.
Proof.
  revert g i. induction cls as [|cl cls IH]; intros g i Hg; [done|].
  rewrite imap_cons. cbn [mjoin list_join]. rewrite filter_app, length_app.
  change (imap (_ ∘ S) cls)
    with (imap (λ idx (cl : list nat),
                  (λ _, (g ∘ S) idx) <$> filter (λ x, x = v) cl) cls).
  destruct i as [|i].
  - rewrite (filter_all (λ cid, cid = g 0)).
    2:{ apply Forall_forall. by intros y (x & -> & _)%list_elem_of_fmap. }
    rewrite (filter_none (λ cid, cid = g 0)).
    2:{ apply Forall_forall.
        intros y (l & Hy & (j & cl' & -> & _)%elem_of_lookup_imap)%list_elem_of_join.
        apply list_elem_of_fmap in Hy as (x & -> & _).
        intros Heq. by apply Hg in Heq. }
    rewrite length_fmap. simpl. lia.
  - rewrite (filter_none (λ cid, cid = g (S i))).
    2:{ apply Forall_forall. intros y (x & -> & _)%list_elem_of_fmap Heq.
        by apply Hg in Heq. }
    change (g (S i)) with ((g ∘ S) i). rewrite IH by apply _. done.
Qed.

Lemma count_membership_of cls v i :
  length (filter (λ cid, cid = i) (membership_of cls v))
  = match cls !! i with
    | Some cl => length (filter (λ x, x = v) cl)
    | None => 0
    end.
Proof. apply (count_membership_from id cls v i). apply _. Qed.

Lemma count_membership_of_NoDup cls v i :
  Forall NoDup cls → length (filter (λ cid, cid = i) (membership_of cls v)) ≤ 1.
Proof.
  intros Hnd. rewrite count_membership_of.
  destruct (cls !! i) as [cl|] eqn:Hcl; [|lia].
  apply length_filter_eq_NoDup. eapply Forall_forall in Hnd; [done|].
  by eapply list_elem_of_lookup_2.
Qed.

Lemma NoDup_es g : NoDup (es g).
Proof.
  apply NoDup_alt. intros i j e. unfold es. rewrite !list_lookup_imap.
  destruct (get_edgelist g !! i), (get_edgelist g !! j); simpl; congruence.
Qed.


Lemma count_bind_own_in {A} `{EqDecision A} (f : A → list A) (k : nat)
    (l : list A) (e : A) :
  NoDup l → (∀ x y, y ∈ f x → y = x) → (∀ x, x ∈ l → length (f x) ≤ k) →
  length (filter (λ x, x = e) (l ≫= f)) ≤ k.
Proof.
  intros Hnd Hown. induction Hnd as [|x l Hx Hnd IH]; intros Hk; [simpl; lia|].
  rewrite bind_cons, filter_app, length_app.
  destruct (decide (x = e)) as [->|Hne].
  - replace (filter (λ x, x = e) (l ≫= f)) with (@nil A).
    + pose proof (length_filter (λ x, x = e) (f e)).
      assert (length (f e) ≤ k) by (apply Hk; by left). simpl. lia.
    + symmetry. apply filter_none, Forall_forall.
      intros y (z & Hy%Hown & Hz)%list_elem_of_bind ->. by subst.
  - rewrite filter_none.
    + apply IH. intros y Hy. apply Hk. by right.
    + apply Forall_forall. intros y Hy%Hown. congruence.
Qed.

Lemma elem_of_count_pos (l : list nat) (i : nat) :
  length (filter (λ cid, cid = i) l) ≠ 0 → i ∈ l.
Proof.
  intros Hc. destruct (filter _ l) as [|x k] eqn:Hf; [done|].
  assert (x ∈ filter (λ cid, cid = i) l) as [-> ?]%list_elem_of_filter
    by (rewrite Hf; by left).
  done.
Qed.

(** An edge that [crossing()] flags is listed at most once for a cluster. *)
Lemma length_appended_crossing c i e :
  Forall NoDup (clusters c) → is_crossing c e = true →
  length (Spec.appended c i e) ≤ 1.
Proof.
  intros Hnd Hcr. rewrite is_crossing_true in Hcr.
  unfold Spec.appended, Spec.collected.
  rewrite bind_cons, length_app, length_bind_decide.
  pose proof (count_membership_of_NoDup (clusters c) (source e) i Hnd) as Hs.
  destruct (is_directed (graph c)); [simpl; lia|].
  rewrite bind_cons, length_app, length_bind_decide. simpl.
  pose proof (count_membership_of_NoDup (clusters c) (target e) i Hnd) as Ht.
  destruct (decide (length (filter (λ cid, cid = i)
                              (membership_of (clusters c) (source e))) = 0))
    as [Hz|Hnz]; [lia|].
  destruct (decide (length (filter (λ cid, cid = i)
                              (membership_of (clusters c) (target e))) = 0))
    as [Hz'|Hnz']; [lia|].
  apply elem_of_count_pos in Hnz, Hnz'. by destruct (Hcr i Hnz).
Qed.

Lemma count_boundary_edges c i e :
  wf_graph (graph c) → i < len c → Forall NoDup (clusters c) →
  length (filter (λ x, x = e) (boundary_edges c i)) ≤ 1.
Proof.
  intros Hwf Hi Hnd. rewrite boundary_edges_closed by done. unfold listed_edges.
  apply count_bind_own_in.
  - apply NoDup_filter, NoDup_es.
  - by intros x y [-> _]%elem_of_appended.
  - intros x [Hcr _]%list_elem_of_filter. by apply length_appended_crossing.
Qed.



(** ** The calculators, cluster by cluster *)

Section closed_forms.
Context (c : Cover) (Hwf : wf_graph (graph c)).

Lemma lookup_cluster i : i < len c → clusters c !! i = Some (cluster c i).
Proof.
  intros Hi. unfold cluster.
  by destruct (lookup_lt_is_Some_2 (clusters c) i Hi) as [cl ->].
Qed.

Lemma size_closed i : i < len c → size c i = Ok (size_of c i).
Proof.
  intros Hi. unfold size. by rewrite (getitem_lookup _ _ _ (lookup_cluster i Hi)).
Qed.

Lemma subgraph_closed i :
  i < len c → subgraph c i = Ok (induced_subgraph (graph c) (cluster c i)).
Proof.
  intros Hi. unfold subgraph.
  by rewrite (getitem_lookup _ _ _ (lookup_cluster i Hi)).
Qed.

Lemma int_closed i :
  i < len c → int c i = ecount (induced_subgraph (graph c) (cluster c i)).
Proof. intros Hi. unfold int. by rewrite subgraph_closed. Qed.

Lemma getitem_boundary i :
  i < len c →
  getitem (listed_edges c <$> seq 0 (len c)) i = Ok (boundary_edges c i).
Proof.
  intros Hi. apply getitem_lookup.
  rewrite list_lookup_fmap, lookup_seq_lt by done.
  by rewrite boundary_edges_closed.
Qed.

Lemma expansion_closed :
  expansion c = for_each (expansion_at c) (seq 0 (len c)).
Proof.
  unfold expansion. rewrite external_edges_closed, bind_Ok by done.
  apply for_each_ext. intros i [_ Hi]%elem_of_seq.
  by rewrite size_closed, bind_Ok, getitem_boundary, bind_Ok by done.
Qed.

Lemma cut_ratio_closed :
  cut_ratio c = for_each (cut_ratio_at c) (seq 0 (len c)).
Proof.
  unfold cut_ratio. rewrite external_edges_closed, bind_Ok by done.
  apply for_each_ext. intros i [_ Hi]%elem_of_seq.
  by rewrite size_closed, bind_Ok, getitem_boundary, bind_Ok by done.
Qed.

Lemma conductance_closed :
  conductance c = for_each (conductance_at c) (seq 0 (len c)).
Proof.
  unfold conductance. rewrite external_edges_closed, bind_Ok by done.
  apply for_each_ext. intros i [_ Hi]%elem_of_seq.
  rewrite subgraph_closed, bind_Ok, getitem_boundary, bind_Ok by done.
  unfold conductance_at. by rewrite int_closed.
Qed.

Lemma separability_closed :
  separability c = for_each (separability_at c) (seq 0 (len c)).
Proof.
  unfold separability. rewrite external_edges_closed, bind_Ok by done.
  apply for_each_ext. intros i [_ Hi]%elem_of_seq.
  rewrite subgraph_closed, bind_Ok, getitem_boundary, bind_Ok by done.
  unfold separability_at. by rewrite int_closed.
Qed.

End closed_forms.

(** ** Arithmetic of counts *)

Lemma of_nat_0 : of_nat 0 = 0%Qc.
Proof. apply Z2Qc_inj_0. Qed.

Lemma of_nat_eq_0 n : of_nat n = 0%Qc ↔ n = 0.
Proof.
  unfold of_nat. rewrite <-Z2Qc_inj_0, Z2Qc_inj_iff. lia.
Qed.

Lemma of_nat_le n m : n ≤ m ↔ (of_nat n ≤ of_nat m)%Qc.
Proof. unfold of_nat. rewrite <-Z2Qc_inj_le. lia. Qed.

Lemma of_nat_lt n m : n < m ↔ (of_nat n < of_nat m)%Qc.
Proof. unfold of_nat. rewrite <-Z2Qc_inj_lt. lia. Qed.

Lemma of_nat_S n : of_nat (S n) = (of_nat n + 1)%Qc.
Proof.
  unfold of_nat. rewrite Nat2Z.inj_succ, <-Z.add_1_r, Z2Qc_inj_add.
  by rewrite Z2Qc_inj_1.
Qed.

Lemma truediv_zero a : truediv a 0%Qc = Raise ZeroDivisionError.
Proof. unfold truediv. by rewrite decide_True. Qed.

Lemma truediv_nonzero a b : b ≠ 0%Qc → truediv a b = Ok (Fin (a / b)%Qc).
Proof. intros Hb. unfold truediv. by rewrite decide_False. Qed.

Lemma truediv_cases a b :
  (∃ y, truediv a b = Ok y) ∨ truediv a b = Raise ZeroDivisionError.
Proof. unfold truediv. destruct (decide (b = 0%Qc)); eauto. Qed.

(** C3, as the code has it: [conductance] returns ext(i) / (2*int(i) +
    ext(i)) for every cluster when no cluster has both counts zero, and
    raises the division error, for the whole call, as soon as one cluster has
    int(i) = 0 and ext(i) = 0. *)
Theorem conductance_formula (c : Cover) :
  wf_graph (graph c) →
  ((∀ i, i < len c → 2 * int c i + ext c i ≠ 0) →
   conductance c
   = Ok ((λ i, Fin (of_nat (ext c i) / of_nat (2 * int c i + ext c i))%Qc)
           <$> seq 0 (len c)))
  ∧ ((∃ i, i < len c ∧ int c i = 0 ∧ ext c i = 0) →
     conductance c = Raise ZeroDivisionError).
Proof.
  intros Hwf. rewrite conductance_closed by done. split.
  - intros Hnz. apply for_each_ok. intros i [_ Hi]%elem_of_seq.
    unfold conductance_at. apply truediv_nonzero.
    rewrite of_nat_eq_0. by apply Hnz.
  - intros (i & Hi & Hint & Hext). apply for_each_raise.
    + intros j _. apply truediv_cases.
    + exists i. split; [apply elem_of_seq; lia|].
      unfold conductance_at. rewrite Hint, Hext. simpl.
      rewrite of_nat_0. apply truediv_zero.
Qed.

Lemma conductance_formula_witness :
  conductance Examples.triangle
  = Ok ((λ i, Fin (of_nat (ext Examples.triangle i)
                   / of_nat (2 * int Examples.triangle i + ext Examples.triangle i))%Qc)
          <$> seq 0 (len Examples.triangle)).
Proof.
  refine (proj1 (conductance_formula Examples.triangle _) _).
  - solve_wf.
  - intros i Hi. assert (i = 0 ∨ i = 1) as [-> | ->] by (vm_compute in Hi; lia);
      vm_compute; lia.
Defined.

(** C3 as stated fails on a single isolated vertex that is its own cluster:
    int = ext = 0 and the call raises the division error instead of returning
    a not-a-number value. *)
Lemma conductance_raises_on_lone_vertex :
  int Examples.lone_vertex 0 = 0 ∧ ext Examples.lone_vertex 0 = 0
  ∧ conductance Examples.lone_vertex = Raise ZeroDivisionError.
Proof. by vm_compute. Qed.

(** C4, as the code has it: [separability] returns int(i) / ext(i) for every
    cluster when every cluster has a boundary edge, and raises the division
    error, for the whole call, as soon as one cluster has ext(i) = 0. *)
Theorem separability_formula (c : Cover) :
  wf_graph (graph c) →
  ((∀ i, i < len c → ext c i ≠ 0) →
   separability c
   = Ok ((λ i, Fin (1 * of_nat (int c i) / of_nat (ext c i))%Qc) <$> seq 0 (len c)))
  ∧ ((∃ i, i < len c ∧ ext c i = 0) →
     separability c = Raise ZeroDivisionError).
Proof.
  intros Hwf. rewrite separability_closed by done. split.
  - intros Hnz. apply for_each_ok. intros i [_ Hi]%elem_of_seq.
    unfold separability_at. apply truediv_nonzero.
    rewrite of_nat_eq_0. by apply Hnz.
  - intros (i & Hi & Hext). apply for_each_raise.
    + intros j _. apply truediv_cases.
    + exists i. split; [apply elem_of_seq; lia|].
      unfold separability_at. rewrite Hext, of_nat_0. apply truediv_zero.
Qed.

Lemma separability_formula_witness :
  separability Examples.triangle
  = Ok ((λ i, Fin (1 * of_nat (int Examples.triangle i)
                   / of_nat (ext Examples.triangle i))%Qc)
          <$> seq 0 (len Examples.triangle)).
Proof.
  refine (proj1 (separability_formula Examples.triangle _) _).
  - solve_wf.
  - intros i Hi. assert (i = 0 ∨ i = 1) as [-> | ->] by (vm_compute in Hi; lia);
      vm_compute; lia.
Defined.

(** C4 as stated fails on two joined vertices forming one cluster: the
    cluster has one internal edge and no boundary edge, and the call raises
    the division error instead of returning a not-a-number value. *)
Lemma separability_raises_without_boundary :
  int (mkCover (mkGraph 2 [(0, 1)] false) [[0; 1]]) 0 = 1
  ∧ ext (mkCover (mkGraph 2 [(0, 1)] false) [[0; 1]]) 0 = 0
  ∧ separability (mkCover (mkGraph 2 [(0, 1)] false) [[0; 1]])
    = Raise ZeroDivisionError.
Proof. by vm_compute. Qed.

(** ** The normalized cut *)

Section loops_app.
Context {A B : Type}.

Lemma for_fold_app (f : B → A → result B) (l1 l2 : list A) (s : B) :
  for_fold f (l1 ++ l2) s = (s' ← for_fold f l1 s; for_fold f l2 s').
Proof.
  revert s. induction l1 as [|x l1 IH]; intros s; [done|].
  simpl. destruct (f s x) as [s'|]; simpl; [apply IH|done].
Qed.

Lemma for_each_app (f : A → result B) (l1 l2 : list A) :
  for_each f (l1 ++ l2)
  = (ys1 ← for_each f l1; ys2 ← for_each f l2; Ok (ys1 ++ ys2)).
Proof.
  induction l1 as [|x l1 IH]; simpl.
  - by destruct (for_each f l2).
  - destruct (f x) as [y|]; simpl; [|done]. rewrite IH.
    destruct (for_each f l1); simpl; [|done].
    by destruct (for_each f l2).
Qed.

Lemma for_fold_ext (f g : B → A → result B) (l : list A) (s : B) :
  (∀ s x, x ∈ l → f s x = g s x) → for_fold f l s = for_fold g l s.
Proof.
  revert s. induction l as [|x l IH]; intros s Hfg; [done|].
  simpl. rewrite Hfg by left. destruct (g s x); simpl; [|done].
  apply IH. intros s' y Hy. apply Hfg. by right.
Qed.

Lemma for_each_length (f : A → result B) (xs : list A) (ys : list B) :
  for_each f xs = Ok ys → length ys = length xs.
Proof. intros H%for_each_inv. symmetry. by eapply Forall2_length. Qed.

End loops_app.

Lemma increased_nil rv : increased rv [] = rv.
Proof.
  apply list_eq. intros j. unfold increased. rewrite list_lookup_imap.
  by destruct (rv !! j).
Qed.

Lemma increased_snoc rv xs old x :
  rv !! length xs = Some old →
  <[length xs := float_add old x]> (increased rv xs) = increased rv (xs ++ [x]).
Proof.
  intros Hold. apply list_eq. intros j. unfold increased.
  destruct (decide (j = length xs)) as [->|Hne].
  - rewrite list_lookup_insert_eq.
    2:{ rewrite length_imap. by eapply lookup_lt_Some. }
    rewrite list_lookup_imap, Hold. simpl.
    by rewrite lookup_app_r, Nat.sub_diag by lia.
  - rewrite list_lookup_insert_ne by done. rewrite !list_lookup_imap.
    destruct (rv !! j); simpl; [|done]. f_equal.
    destruct (decide (j < length xs)).
    + by rewrite lookup_app_l by done.
    + rewrite lookup_app_r by lia. rewrite (lookup_ge_None_2 xs) by lia.
      destruct (j - length xs) as [|m] eqn:Hm; [lia|done].
Qed.

Lemma increased_zip_with rv xs :
  length xs = length rv → increased rv xs = zip_with float_add rv xs.
Proof.
  intros Hlen. apply list_eq. intros j. unfold increased.
  rewrite list_lookup_imap, lookup_zip_with.
  destruct (rv !! j) as [old|] eqn:Hj; simpl; [|done].
  destruct (lookup_lt_is_Some_2 xs j) as [x ->]; [|done].
  rewrite Hlen. by eapply lookup_lt_Some.
Qed.

Lemma for_fold_increase (f : nat → result pyfloat) (n : nat) (rv : list pyfloat) :
  n ≤ length rv →
  for_fold (increase_at f) (seq 0 n) rv
  = (xs ← for_each f (seq 0 n); Ok (increased rv xs)).
Proof.
  induction n as [|n IH]; intros Hn.
  - simpl. by rewrite increased_nil.
  - rewrite seq_S, for_fold_app, for_each_app, IH by lia. simpl.
    destruct (for_each f (seq 0 n)) as [xs|] eqn:Hxs; simpl; [|done].
    apply for_each_length in Hxs. rewrite length_seq in Hxs.
    destruct (lookup_lt_is_Some_2 rv n) as [old Hold]; [lia|].
    unfold increase_at.
    rewrite (getitem_lookup _ _ old).
    2:{ unfold increased. rewrite list_lookup_imap, Hold. simpl.
        by rewrite lookup_ge_None_2 by lia. }
    rewrite bind_Ok. destruct (f n) as [x|]; simpl; [|done].
    f_equal. rewrite <-Hxs. apply increased_snoc. by rewrite Hxs.
Qed.

Lemma normalized_cut_closed c :
  wf_graph (graph c) →
  normalized_cut c
  = (cv ← conductance c;
     xs ← for_each (second_term c) (seq 0 (len c));
     Ok (zip_with float_add cv xs)).
Proof.
  intros Hwf. unfold normalized_cut.
  destruct (conductance c) as [cv|] eqn:Hcv; [|done]. rewrite !bind_Ok.
  rewrite external_edges_closed, bind_Ok by done.
  assert (length cv = len c) as Hlen.
  { rewrite conductance_closed in Hcv by done.
    apply for_each_length in Hcv. by rewrite length_seq in Hcv. }
  transitivity (for_fold (increase_at (second_term c)) (seq 0 (len c)) cv).
  - apply for_fold_ext. intros rv i [_ Hi]%elem_of_seq.
    rewrite subgraph_closed, bind_Ok, getitem_boundary, bind_Ok by done.
    unfold increase_at, second_term. by rewrite int_closed.
  - rewrite for_fold_increase by lia.
    destruct (for_each _ _) as [xs|] eqn:Hxs; [|done]. rewrite !bind_Ok.
    rewrite increased_zip_with; [done|].
    apply for_each_length in Hxs. rewrite length_seq in Hxs. lia.
Qed.

(** C7: [normalized_cut] is [conductance] followed by the addition, cluster
    by cluster, of ext(i) / (2*(E - int(i)) + ext(i)): it raises when
    [conductance] raises or when a second term has a zero divisor, and
    otherwise each of its values is the conductance of the cluster plus the
    second term. *)
Theorem normalized_cut_conductance (c : Cover) :
  wf_graph (graph c) →
  normalized_cut c
  = (cv ← conductance c;
     xs ← for_each (second_term c) (seq 0 (len c));
     Ok (zip_with float_add cv xs))
  ∧ (∀ rv, normalized_cut c = Ok rv →
       ∃ cv, conductance c = Ok cv ∧ length rv = len c ∧
         ∀ i, i < len c →
           ∃ x, cv !! i = Some (Fin x)
             ∧ of_Z (2 * (Z.of_nat (ecount (graph c)) - Z.of_nat (int c i))
                     + Z.of_nat (ext c i)) ≠ 0%Qc
             ∧ rv !! i
               = Some (Fin (x + of_nat (ext c i)
                                / of_Z (2 * (Z.of_nat (ecount (graph c))
                                             - Z.of_nat (int c i))
                                        + Z.of_nat (ext c i)))%Qc)).
Proof.
  intros Hwf. split; [by apply normalized_cut_closed|].
  intros rv. rewrite normalized_cut_closed by done.
  destruct (conductance c) as [cv|] eqn:Hcv; [|done]. rewrite bind_Ok.
  destruct (for_each _ _) as [xs|] eqn:Hxs; [|done]. rewrite bind_Ok.
  intros [= <-]. exists cv. split; [done|].
  rewrite conductance_closed in Hcv by done.
  pose proof (for_each_length _ _ _ Hcv) as Hlc.
  pose proof (for_each_length _ _ _ Hxs) as Hlx.
  rewrite length_seq in Hlc, Hlx.
  split; [rewrite length_zip_with; lia|].
  intros i Hi.
  apply for_each_inv in Hcv, Hxs.
  destruct (lookup_lt_is_Some_2 cv i) as [y Hy]; [lia|].
  destruct (lookup_lt_is_Some_2 xs i) as [z Hz]; [lia|].
  pose proof (Forall2_lookup_lr _ _ _ i i y Hcv (lookup_seq_lt 0 _ _ Hi) Hy) as Hcy.
  pose proof (Forall2_lookup_lr _ _ _ i i z Hxs (lookup_seq_lt 0 _ _ Hi) Hz) as Hxz.
  unfold conductance_at, truediv in Hcy. unfold second_term, truediv in Hxz.
  repeat case_decide; simplify_eq.
  eexists. split; [done|]. split; [done|].
  rewrite lookup_zip_with, Hy, Hz. done.
Qed.

Lemma normalized_cut_conductance_witness :
  normalized_cut Examples.triangle
  = (cv ← conductance Examples.triangle;
     xs ← for_each (second_term Examples.triangle) (seq 0 (len Examples.triangle));
     Ok (zip_with float_add cv xs)).
Proof.
  refine (proj1 (normalized_cut_conductance Examples.triangle _)). solve_wf.
Defined.

(** ** A single cluster that holds every vertex *)

Section whole_graph.
Context (g : Graph) (vs : list nat).
Context (Hwf : wf_graph g) (Hvs : vs ≡ₚ seq 0 (vcount g)).

Let c := mkCover g [vs].

Lemma whole_membership v : v < vcount g → membership_of [vs] v = [0].
Proof.
  intros Hv. unfold membership_of. simpl. rewrite app_nil_r.
  assert (length (filter (λ x, x = v) vs) = 1) as Hlen.
  { assert (NoDup vs) as Hnd.
    { rewrite Hvs. apply NoDup_seq. }
    pose proof (length_filter_eq_NoDup vs v Hnd).
    assert (v ∈ filter (λ x, x = v) vs) as Hin.
    { apply list_elem_of_filter. split; [done|].
      rewrite Hvs. apply elem_of_seq. lia. }
    destruct (filter (λ x, x = v) vs); [by apply elem_of_nil in Hin|].
    simpl in *. lia. }
  destruct (filter (λ x, x = v) vs) as [|x [|y l]]; simplify_eq/=. done.
Qed.

Lemma whole_boundary : listed_edges c 0 = [].
Proof.
  unfold listed_edges. rewrite filter_none; [done|].
  apply Forall_forall. intros e He.
  destruct (es_in_range g e Hwf He) as [Hs Ht].
  rewrite is_crossing_true. simpl.
  rewrite !whole_membership by done. intros Hdis.
  apply (Hdis 0); by left.
Qed.

Lemma whole_external_edges : external_edges c = Ok [[]].
Proof.
  rewrite external_edges_closed by done. simpl. by rewrite whole_boundary.
Qed.

Lemma whole_ext : ext c 0 = 0.
Proof. unfold ext, boundary_edges. by rewrite whole_external_edges. Qed.

Lemma whole_size : size_of c 0 = vcount g.
Proof. unfold size_of, cluster, c. simpl. by rewrite Hvs, length_seq. Qed.

Lemma whole_int : int c 0 = ecount g.
Proof.
  unfold int, subgraph, ecount, c. simpl.
  rewrite length_map. f_equal. apply filter_all.
  eapply Forall_impl; [apply Hwf|]. intros st [H1 H2]. simpl in *.
  unfold subgraph_vertices.
  split; apply list_elem_of_filter; rewrite Hvs; split; apply elem_of_seq; lia.
Qed.

Lemma whole_expansion : 0 < vcount g → expansion c = Ok [Fin 0%Qc].
Proof.
  intros Hn. rewrite expansion_closed by done. simpl.
  unfold expansion_at. rewrite whole_ext, whole_size, of_nat_0.
  rewrite truediv_nonzero by (rewrite of_nat_eq_0; lia).
  rewrite bind_Ok. do 3 f_equal.
  unfold Qcdiv. by rewrite Qcmult_0_r, Qcmult_0_l.
Qed.

Lemma whole_cut_ratio : cut_ratio c = Raise ZeroDivisionError.
Proof.
  rewrite cut_ratio_closed by done. simpl.
  unfold cut_ratio_at. rewrite whole_size, Z.sub_diag, Z.mul_0_r.
  unfold of_Z. rewrite Z2Qc_inj_0. by rewrite truediv_zero.
Qed.

Lemma whole_conductance : 0 < ecount g → conductance c = Ok [Fin 0%Qc].
Proof.
  intros He. rewrite conductance_closed by done. simpl.
  unfold conductance_at. rewrite whole_ext, whole_int, of_nat_0.
  rewrite truediv_nonzero by (rewrite of_nat_eq_0; lia).
  rewrite bind_Ok. do 3 f_equal.
  unfold Qcdiv. by rewrite Qcmult_0_l.
Qed.

Lemma whole_separability : separability c = Raise ZeroDivisionError.
Proof.
  rewrite separability_closed by done. simpl.
  unfold separability_at. rewrite whole_ext, of_nat_0.
  by rewrite truediv_zero.
Qed.

End whole_graph.

(** C8, as the code has it: for the cover made of one cluster that lists
    every vertex of the graph once, the boundary-edge collection is empty,
    the cut ratio and the separability raise the division error (zero
    divisor), the expansion is 0 provided the graph has a vertex and the
    conductance is 0 provided the graph has an edge. *)
Theorem whole_graph_cluster (g : Graph) (vs : list nat) :
  wf_graph g → vs ≡ₚ seq 0 (vcount g) →
  external_edges (mkCover g [vs]) = Ok [[]]
  ∧ (0 < vcount g → expansion (mkCover g [vs]) = Ok [Fin 0%Qc])
  ∧ cut_ratio (mkCover g [vs]) = Raise ZeroDivisionError
  ∧ (0 < ecount g → conductance (mkCover g [vs]) = Ok [Fin 0%Qc])
  ∧ separability (mkCover g [vs]) = Raise ZeroDivisionError.
Proof.
  intros Hwf Hvs. split; [by apply whole_external_edges|].
  split; [by apply whole_expansion|]. split; [by apply whole_cut_ratio|].
  split; [by apply whole_conductance|]. by apply whole_separability.
Qed.

Lemma whole_graph_cluster_witness :
  external_edges (mkCover (mkGraph 3 [(0, 1); (1, 2); (0, 2)] false) [[2; 0; 1]])
  = Ok [[]]
  ∧ conductance (mkCover (mkGraph 3 [(0, 1); (1, 2); (0, 2)] false) [[2; 0; 1]])
    = Ok [Fin 0%Qc].
Proof.
  assert (wf_graph (mkGraph 3 [(0, 1); (1, 2); (0, 2)] false)) as Hwf by solve_wf.
  assert ([2; 0; 1] ≡ₚ seq 0 3) as Hp.
  { simpl. etrans; [apply Permutation_swap|]. apply perm_skip, Permutation_swap. }
  destruct (whole_graph_cluster _ _ Hwf Hp) as (H1 & _ & _ & H4 & _).
  split; [exact H1|]. apply H4. vm_compute. lia.
Defined.

(** C8 as stated fails on the graph with one vertex and no edge: its only
    cluster holds the whole vertex set, and the conductance call raises the
    division error instead of returning 0. *)
Lemma whole_graph_conductance_raises :
  [0] ≡ₚ seq 0 (vcount (graph Examples.lone_vertex))
  ∧ clusters Examples.lone_vertex = [[0]]
  ∧ conductance Examples.lone_vertex = Raise ZeroDivisionError
  ∧ conductance Examples.lone_vertex ≠ Ok [Fin 0%Qc].
Proof. split; [done|]. split; [done|]. split; [by vm_compute|]. by vm_compute. Qed.

(** ** Boundary edges counted per vertex *)

Lemma credit_edge_closed c i counts e :
  source e < vcount (graph c) → target e < vcount (graph c) →
  length counts = vcount (graph c) →
  credit_edge c i counts e
  = Ok (imap (λ v x, if decide (node_index c i e = v) then (x + 1)%Qc else x) counts).
Proof.
  intros Hs Ht Hlen. unfold credit_edge.
  rewrite getitem_membership, bind_Ok by done.
  fold (node_index c i e).
  assert (node_index c i e < length counts) as Hni.
  { unfold node_index. case_decide; lia. }
  destruct (lookup_lt_is_Some_2 counts _ Hni) as [old Hold].
  rewrite (getitem_lookup _ _ _ Hold), bind_Ok. f_equal.
  apply list_eq. intros v. rewrite list_lookup_imap.
  destruct (decide (node_index c i e = v)) as [<-|Hne].
  - by rewrite list_lookup_insert_eq, Hold by done.
  - rewrite list_lookup_insert_ne by done.
    by destruct (counts !! v).
Qed.

Lemma for_fold_credit_edge c i ee counts :
  Forall (λ e, source e < vcount (graph c) ∧ target e < vcount (graph c)) ee →
  length counts = vcount (graph c) →
  for_fold (credit_edge c i) ee counts
  = Ok (imap (λ v x, (x + of_nat (credit c i ee v))%Qc) counts).
Proof.
  revert counts. induction ee as [|e ee IH]; intros counts Hr Hlen.
  - simpl. f_equal. apply list_eq. intros v. rewrite list_lookup_imap.
    destruct (counts !! v); simpl; [|done].
    unfold credit. simpl. by rewrite of_nat_0, Qcplus_0_r.
  - apply Forall_cons in Hr as [[Hs Ht] Hr]. cbn [for_fold].
    rewrite credit_edge_closed, bind_Ok by done.
    rewrite IH by (by rewrite ?length_imap). f_equal.
    apply list_eq. intros v. rewrite !list_lookup_imap.
    destruct (counts !! v) as [x|]; simpl; [|done]. f_equal.
    unfold credit. rewrite filter_cons.
    destruct (decide (node_index c i e = v)); [|done].
    simpl. rewrite of_nat_S. ring.
Qed.

Lemma ext_edge_per_node_closed c i ee :
  Forall (λ e, source e < vcount (graph c) ∧ target e < vcount (graph c)) ee →
  ext_edge_per_node c i ee
  = Ok ((λ v, of_nat (credit c i ee v)) <$> seq 0 (vcount (graph c))).
Proof.
  intros Hr. unfold ext_edge_per_node.
  rewrite for_fold_credit_edge by (by rewrite ?length_replicate). f_equal.
  apply list_eq. intros v. rewrite list_lookup_imap, list_lookup_fmap.
  destruct (decide (v < vcount (graph c))) as [Hv|Hv].
  - rewrite lookup_replicate_2, lookup_seq_lt by done. simpl.
    by rewrite Qcplus_0_l.
  - rewrite (lookup_ge_None_2 (replicate _ _)), lookup_seq_ge
      by (rewrite ?length_replicate; lia).
    done.
Qed.

Lemma boundary_edges_in_range c i :
  wf_graph (graph c) → i < len c →
  Forall (λ e, source e < vcount (graph c) ∧ target e < vcount (graph c))
    (boundary_edges c i).
Proof.
  intros Hwf Hi. rewrite boundary_edges_closed by done.
  apply Forall_forall. intros e (He & _)%elem_of_listed_edges.
  by apply es_in_range.
Qed.

Lemma elem_of_cluster c i v :
  i ∈ membership_of (clusters c) v ↔ i < len c ∧ v ∈ cluster c i.
Proof.
  rewrite elem_of_membership_of. unfold cluster, len. split.
  - intros (cl & Hcl & Hv). rewrite Hcl. split; [|done].
    by eapply lookup_lt_Some.
  - intros [Hi Hv]. destruct (lookup_lt_is_Some_2 _ _ Hi) as [cl Hcl].
    rewrite Hcl in Hv. eauto.
Qed.

Lemma node_index_member c i e :
  wf_graph (graph c) → i < len c → e ∈ boundary_edges c i →
  (i ∈ membership_of (clusters c) (source e)
   ∨ i ∈ membership_of (clusters c) (target e))
  ∧ (node_index c i e = source e ∨ node_index c i e = target e)
  ∧ node_index c i e ∈ cluster c i.
Proof.
  intros Hwf Hi. rewrite boundary_edges_closed by done.
  intros (_ & _ & Hm)%elem_of_listed_edges.
  unfold node_index. case_decide as Hsrc.
  - split; [by left|]. split; [by left|].
    by apply elem_of_cluster in Hsrc as [_ ?].
  - destruct Hm as [?|[_ Ht]]; [done|].
    split; [by right|]. split; [by right|].
    by apply elem_of_cluster in Ht as [_ ?].
Qed.

Lemma credit_nonzero_member c i v :
  wf_graph (graph c) → i < len c →
  credit c i (boundary_edges c i) v ≠ 0 → v ∈ cluster c i.
Proof.
  intros Hwf Hi Hcr. unfold credit in Hcr.
  destruct (filter _ _) as [|e l] eqn:Hf; [done|].
  assert (e ∈ filter (λ e, node_index c i e = v) (boundary_edges c i)) as He.
  { rewrite Hf. by left. }
  apply list_elem_of_filter in He as [<- He].
  by apply node_index_member.
Qed.

(** C10: every edge in the boundary-edge collection of cluster [i] has an
    endpoint whose membership list contains [i]; the vertex the
    out-degree-fraction functions count it at (the source if the source is in
    cluster [i], else the target) is in cluster [i]; and so the per-vertex
    boundary-edge counts are zero at every vertex outside the cluster. *)
Theorem boundary_credit_stays_in_cluster (c : Cover) :
  wf_graph (graph c) →
  ∃ arr, external_edges c = Ok arr ∧
    ∀ i, i < len c →
      ∃ ee counts,
        arr !! i = Some ee
        ∧ (∀ e, e ∈ ee →
             (i ∈ membership_of (clusters c) (source e)
              ∨ i ∈ membership_of (clusters c) (target e))
             ∧ i ∈ membership_of (clusters c) (node_index c i e)
             ∧ node_index c i e ∈ cluster c i)
        ∧ ext_edge_per_node c i ee = Ok counts
        ∧ length counts = vcount (graph c)
        ∧ (∀ v x, counts !! v = Some x → v ∉ cluster c i → x = 0%Qc).
Proof.
  intros Hwf. eexists. split; [by apply external_edges_closed|].
  intros i Hi. exists (boundary_edges c i). eexists.
  split; [|split; [|split; [|split]]].
  - rewrite list_lookup_fmap, lookup_seq_lt by done.
    by rewrite boundary_edges_closed.
  - intros e He. destruct (node_index_member c i e Hwf Hi He) as (H1 & _ & H3).
    split; [done|]. split; [|done]. by apply elem_of_cluster.
  - by apply ext_edge_per_node_closed, boundary_edges_in_range.
  - by rewrite length_fmap, length_seq.
  - intros v x Hx Hv. rewrite list_lookup_fmap in Hx.
    destruct (seq 0 (vcount (graph c)) !! v) as [w|] eqn:Hw; [|done].
    apply lookup_seq in Hw as [-> _]. simpl in Hx. injection Hx as <-.
    apply of_nat_eq_0. destruct (decide (credit c i (boundary_edges c i) v = 0)); [done|].
    exfalso. apply Hv. by apply credit_nonzero_member.
Qed.

Lemma boundary_credit_stays_in_cluster_witness :
  ∃ arr, external_edges Examples.triangle = Ok arr ∧
    ∀ i, i < len Examples.triangle →
      ∃ ee counts,
        arr !! i = Some ee
        ∧ (∀ e, e ∈ ee →
             (i ∈ membership_of (clusters Examples.triangle) (source e)
              ∨ i ∈ membership_of (clusters Examples.triangle) (target e))
             ∧ i ∈ membership_of (clusters Examples.triangle)
                   (node_index Examples.triangle i e)
             ∧ node_index Examples.triangle i e ∈ cluster Examples.triangle i)
        ∧ ext_edge_per_node Examples.triangle i ee = Ok counts
        ∧ length counts = vcount (graph Examples.triangle)
        ∧ (∀ v x, counts !! v = Some x → v ∉ cluster Examples.triangle i → x = 0%Qc).
Proof. apply (boundary_credit_stays_in_cluster Examples.triangle). solve_wf. Defined.

(** ** The out-degree fractions, cluster by cluster *)

Lemma zip_fmap_same {A B C} (f : A → B) (g : A → C) (l : list A) :
  zip (f <$> l) (g <$> l) = (λ x, (f x, g x)) <$> l.
Proof. induction l as [|x l IH]; [done|]. simpl. f_equal. apply IH. Qed.

Lemma for_each_fmap {A B C} (f : B → result C) (g : A → B) (l : list A) :
  for_each f (g <$> l) = for_each (λ x, f (g x)) l.
Proof.
  induction l as [|x l IH]; [done|].
  rewrite fmap_cons. cbn [for_each]. by rewrite IH.
Qed.

Lemma length_filter_fmap_true {A} (f : A → bool) (l : list A) :
  length (filter (λ b, b = true) (f <$> l)) = length (filter (λ x, f x = true) l).
Proof.
  induction l as [|x l IH]; [done|].
  rewrite fmap_cons, !filter_cons.
  destruct (f x) eqn:Hfx; repeat case_decide; try done; simpl; by rewrite IH.
Qed.

Section odf_closed_forms.
Context (c : Cover) (Hwf : wf_graph (graph c)).

Lemma ratios_closed i :
  i < len c →
  ratios c i (boundary_edges c i)
  = Ok (ratio_at c i <$> seq 0 (vcount (graph c))).
Proof.
  intros Hi. unfold ratios.
  rewrite ext_edge_per_node_closed, bind_Ok by (by apply boundary_edges_in_range).
  unfold degree. rewrite zip_fmap_same.
  rewrite for_each_fmap. apply for_each_ok.
  intros v _. unfold ratio, ratio_at, degree_of, credit_of. simpl.
  case_decide as Hd; [|done].
  apply truediv_nonzero. by rewrite of_nat_eq_0.
Qed.

Lemma maximum_out_degree_fraction_closed :
  maximum_out_degree_fraction c
  = for_each (λ i, py_max (ratio_at c i <$> seq 0 (vcount (graph c))))
      (seq 0 (len c)).
Proof.
  unfold maximum_out_degree_fraction.
  rewrite external_edges_closed, bind_Ok by done.
  apply for_each_ext. intros i [_ Hi]%elem_of_seq.
  by rewrite getitem_boundary, bind_Ok, ratios_closed, bind_Ok by done.
Qed.

Lemma average_out_degree_fraction_closed :
  average_out_degree_fraction c
  = Ok ((λ i, np_truediv (nansum (ratio_at c i <$> seq 0 (vcount (graph c))))
                (of_nat (sub_vcount c i))) <$> seq 0 (len c)).
Proof.
  unfold average_out_degree_fraction.
  rewrite external_edges_closed, bind_Ok by done.
  apply for_each_ok. intros i [_ Hi]%elem_of_seq.
  rewrite getitem_boundary, bind_Ok, ratios_closed, bind_Ok by done.
  by rewrite subgraph_closed, bind_Ok by done.
Qed.

Lemma flake_out_degree_fraction_closed :
  flake_out_degree_fraction c
  = for_each (λ i, truediv (of_nat (flake_count c i)) (of_nat (sub_vcount c i)))
      (seq 0 (len c)).
Proof.
  unfold flake_out_degree_fraction.
  rewrite external_edges_closed, bind_Ok by done.
  apply for_each_ext. intros i [_ Hi]%elem_of_seq.
  rewrite getitem_boundary, bind_Ok by done.
  rewrite ext_edge_per_node_closed, bind_Ok by (by apply boundary_edges_in_range).
  rewrite subgraph_closed, bind_Ok by done.
  unfold degree. rewrite zip_fmap_same. unfold flake_count.
  do 2 f_equal. cbv zeta.
  rewrite <-list_fmap_compose. apply length_filter_fmap_true.
Qed.

End odf_closed_forms.

(** ** Python's [max] and not-a-number *)

Lemma fold_max_nan (l : list pyfloat) :
  fold_left (λ m y, if float_gt y m then y else m) l NaN = NaN.
Proof.
  induction l as [|y l IH]; [done|]. simpl. by destruct y.
Qed.

Lemma py_max_nan_first (l : list pyfloat) : py_max (NaN :: l) = Ok NaN.
Proof. unfold py_max. by rewrite fold_max_nan. Qed.

(** X10: when vertex 0 has no edge, [maximum_out_degree_fraction] returns
    not-a-number for every cluster, whatever the other vertices are. *)
Lemma maximum_out_degree_fraction_nan (c : Cover) :
  wf_graph (graph c) → 0 < vcount (graph c) → degree_of c 0 = 0 →
  maximum_out_degree_fraction c = Ok ((λ _, NaN) <$> seq 0 (len c)).
Proof.
  intros Hwf Hn Hd. rewrite maximum_out_degree_fraction_closed by done.
  apply for_each_ok. intros i _.
  destruct (vcount (graph c)) as [|n]; [lia|].
  rewrite <-cons_seq, fmap_cons. unfold ratio_at at 1.
  rewrite decide_False by lia. apply py_max_nan_first.
Qed.

Lemma elem_of_cons_skip {A} (x y z : A) (l : list A) : x ∈ y :: l → x ∈ y :: z :: l.
Proof. intros [->|?]%elem_of_cons; [by left|by do 2 right]. Qed.

Lemma fold_max_fin (l : list pyfloat) (x : Qc) :
  Forall (λ y, y = NaN ∨ ∃ q, y = Fin q) l →
  ∃ m, fold_left (λ m y, if float_gt y m then y else m) l (Fin x) = Fin m
       ∧ Fin m ∈ Fin x :: l
       ∧ ∀ q, Fin q ∈ Fin x :: l → (q ≤ m)%Qc.
Proof.
  intros Hl. revert x. induction Hl as [|y l Hy Hl IH]; intros x.
  - exists x. split; [done|]. split; [by left|].
    intros q [= ->]%list_elem_of_singleton. apply Qcle_refl.
  - destruct Hy as [->|[q ->]]; simpl.
    + destruct (IH x) as (m & Hm & Hin & Hmax). exists m. split; [done|].
      split; [by apply elem_of_cons_skip|].
      intros q [Hq|[Hq|Hq]%elem_of_cons]%elem_of_cons; [|done|].
      * apply Hmax. rewrite Hq. by left.
      * apply Hmax. by right.
    + case_bool_decide as Hlt.
      * destruct (IH q) as (m & Hm & Hin & Hmax). exists m. split; [done|].
        split; [by right|].
        intros q' [[= ->]|Hq']%elem_of_cons; [|by apply Hmax].
        etrans; [apply Qclt_le_weak, Hlt|]. apply Hmax. by left.
      * destruct (IH x) as (m & Hm & Hin & Hmax). exists m. split; [done|].
        split; [by apply elem_of_cons_skip|].
        intros q' [Hq'|[[= ->]|Hq']%elem_of_cons]%elem_of_cons.
        -- apply Hmax. rewrite Hq'. by left.
        -- etrans; [by apply Qcnot_lt_le|]. apply Hmax. by left.
        -- apply Hmax. by right.
Qed.

(** C5 fails on the graph 0  1-2 with the clusters {1} and {2}: vertex 1,
    the only vertex of cluster 0, has the ratio 1/1, but the isolated vertex
    0 comes first in the list of ratios and [max] keeps its not-a-number
    value to the end. *)
Theorem maximum_out_degree_fraction_absorbs_nan :
  ratios Examples.isolated_first 0 (boundary_edges Examples.isolated_first 0)
  = Ok [NaN; Fin 1%Qc; Fin 0%Qc]
  ∧ cluster Examples.isolated_first 0 = [1]
  ∧ maximum_out_degree_fraction Examples.isolated_first = Ok [NaN; NaN].
Proof. split; [by_evaluation|]. split; [done|]. by_evaluation. Qed.

(** ** Bounds on the out-degree fractions *)

Lemma of_nat_nonneg n : (0 ≤ of_nat n)%Qc.
Proof. rewrite <-of_nat_0. apply of_nat_le. lia. Qed.

Lemma of_nat_1 : of_nat 1 = 1%Qc.
Proof. apply Z2Qc_inj_1. Qed.

Lemma of_nat_add n m : of_nat (n + m) = (of_nat n + of_nat m)%Qc.
Proof. unfold of_nat. by rewrite Nat2Z.inj_add, Z2Qc_inj_add. Qed.

Lemma Qcdiv_nonneg (a b : Qc) : (0 ≤ a → 0 < b → 0 ≤ a / b)%Qc.
Proof.
  intros Ha Hb. unfold Qcdiv. apply Qcmult_nonneg_nonneg; [done|].
  apply Qclt_le_weak. by apply Qcinv_pos.
Qed.

Lemma Qcdiv_le_1 (a b : Qc) : (a ≤ b → 0 < b → a / b ≤ 1)%Qc.
Proof.
  intros Hab Hb. unfold Qcdiv.
  rewrite <-(Qcmult_inv_r b) by (intros ->; by apply (irreflexivity Qclt) in Hb).
  apply Qcmult_le_mono_nonneg_r; [|done].
  apply Qclt_le_weak. by apply Qcinv_pos.
Qed.

Lemma fold_float_add_bound (l : list pyfloat) (bs : list nat) (a : Qc) (k : nat) :
  Forall2 bounded_by l bs → (0 ≤ a ≤ of_nat k)%Qc →
  ∃ s, fold_left float_add (filter (λ x, is_nan x = false) l) (Fin a) = Fin s
       ∧ (0 ≤ s ≤ of_nat (k + sum_list bs))%Qc.
Proof.
  intros Hl. revert a k. induction Hl as [|x b l bs Hx Hl IH]; intros a k [Ha1 Ha2].
  - exists a. simpl. by rewrite Nat.add_0_r.
  - destruct Hx as [->|(q & -> & Hq1 & Hq2)].
    + rewrite filter_cons_False by done.
      destruct (IH a k) as (s & Hs & Hs1 & Hs2); [done|].
      exists s. split; [done|]. split; [done|].
      etrans; [apply Hs2|]. apply of_nat_le. simpl. lia.
    + rewrite filter_cons_True by done. simpl.
      destruct (IH (a + q)%Qc (k + b)) as (s & Hs & Hs1 & Hs2).
      { split; [by apply Qcplus_nonneg_nonneg|].
        rewrite of_nat_add. by apply Qcplus_le_compat. }
      exists s. split; [done|]. split; [done|].
      by rewrite Nat.add_assoc.
Qed.

Lemma nansum_bound (l : list pyfloat) (bs : list nat) :
  Forall2 bounded_by l bs →
  ∃ s, nansum l = Fin s ∧ (0 ≤ s ≤ of_nat (sum_list bs))%Qc.
Proof.
  intros Hl. destruct (fold_float_add_bound l bs 0%Qc 0 Hl) as (s & Hs & Hb).
  { rewrite of_nat_0. split; apply Qcle_refl. }
  exists s. split; [done|]. done.
Qed.

Lemma sum_list_indicator {A} (P : A → Prop) `{∀ x, Decision (P x)} (l : list A) :
  sum_list ((λ x, if decide (P x) then 1 else 0) <$> l) = length (filter P l).
Proof.
  induction l as [|x l IH]; [done|].
  rewrite fmap_cons, filter_cons. simpl. rewrite IH. by destruct (decide (P x)).
Qed.

Lemma length_filter_impl {A} (P Q : A → Prop)
    `{∀ x, Decision (P x)} `{∀ x, Decision (Q x)} (l : list A) :
  (∀ x, x ∈ l → P x → Q x) → length (filter P l) ≤ length (filter Q l).
Proof.
  induction l as [|x l IH]; intros HPQ; [done|].
  rewrite !filter_cons.
  assert (length (filter P l) ≤ length (filter Q l)) as Hle.
  { apply IH. intros y Hy. apply HPQ. by right. }
  destruct (decide (P x)) as [HP|HP].
  - rewrite decide_True by (apply HPQ; [by left|done]). simpl. lia.
  - destruct (decide (Q x)); simpl; lia.
Qed.

(** Edges that end at [v], and the degree of [v]. *)
Lemma length_incident_le (h : nat → nat * nat → Edge) (el : list (nat * nat)) (v : nat) :
  (∀ i st, source (h i st) = st.1 ∧ target (h i st) = st.2) →
  length (filter (λ e, source e = v ∨ target e = v) (imap h el)) ≤ degree_in el v.
Proof.
  unfold degree_in. revert h. induction el as [|st el IH]; intros h Hh; [done|].
  rewrite imap_cons, !filter_cons.
  specialize (IH (h ∘ S) (λ i st', Hh (S i) st')).
  destruct (Hh 0 st) as [-> ->].
  repeat case_decide; simpl; lia.
Qed.

Lemma credit_le_degree c i v :
  wf_graph (graph c) → i < len c → NoDup (boundary_edges c i) →
  credit_of c i v ≤ degree_of c v.
Proof.
  intros Hwf Hi Hnd. unfold credit_of, credit, degree_of.
  etrans; [|apply (length_incident_le (λ i st, mkEdge i st.1 st.2)); done].
  apply submseteq_length, NoDup_submseteq; [by apply NoDup_filter|].
  intros e [Hni He]%list_elem_of_filter.
  apply list_elem_of_filter. split.
  - destruct (node_index_member c i e Hwf Hi He) as (_ & [Heq|Heq] & _);
      rewrite <-Hni, Heq; auto.
  - rewrite boundary_edges_closed in He by done.
    by apply elem_of_listed_edges in He as (He & _).
Qed.

Lemma degree_nonzero_in_range c v :
  wf_graph (graph c) → degree_of c v ≠ 0 → v < vcount (graph c).
Proof.
  intros Hwf Hd. unfold degree_of, degree_in in Hd.
  assert (∃ st, st ∈ get_edgelist (graph c) ∧ (st.1 = v ∨ st.2 = v))
    as (st & Hst & Hv).
  { destruct (filter (λ st, st.1 = v) _) as [|st l] eqn:H1.
    - destruct (filter (λ st, st.2 = v) _) as [|st l] eqn:H2; [done|].
      assert (st ∈ filter (λ st : nat * nat, st.2 = v) (get_edgelist (graph c)))
        as [? ?]%list_elem_of_filter by (rewrite H2; by left).
      eauto.
    - assert (st ∈ filter (λ st : nat * nat, st.1 = v) (get_edgelist (graph c)))
        as [? ?]%list_elem_of_filter by (rewrite H1; by left).
      eauto. }
  eapply Forall_forall in Hwf as [H1 H2]; [|done].
  destruct Hv as [<-|<-]; done.
Qed.

Lemma ratio_at_bounded c i v :
  wf_graph (graph c) → i < len c → NoDup (boundary_edges c i) →
  bounded_by (ratio_at c i v) (if decide (v ∈ cluster c i) then 1 else 0).
Proof.
  intros Hwf Hi Hnd. unfold ratio_at.
  case_decide as Hd; [|by left]. right. eexists. split; [done|].
  assert (0 < of_nat (degree_of c v))%Qc as Hpos.
  { rewrite <-of_nat_0. apply of_nat_lt. lia. }
  split; [apply Qcdiv_nonneg; [apply of_nat_nonneg|done]|].
  case_decide as Hv.
  - rewrite of_nat_1. apply Qcdiv_le_1; [|done].
    apply of_nat_le. by apply credit_le_degree.
  - assert (credit_of c i v = 0) as ->.
    { destruct (decide (credit_of c i v = 0)); [done|].
      exfalso. apply Hv. by apply credit_nonzero_member. }
    rewrite of_nat_0. unfold Qcdiv. rewrite Qcmult_0_l. apply Qcle_refl.
Qed.

Lemma sub_vcount_pos c i v :
  v ∈ cluster c i → v < vcount (graph c) → 0 < sub_vcount c i.
Proof.
  intros Hv Hn. unfold sub_vcount, subgraph_vertices.
  assert (v ∈ filter (λ v, v ∈ cluster c i) (seq 0 (vcount (graph c)))) as Hin.
  { apply list_elem_of_filter. split; [done|]. apply elem_of_seq. lia. }
  destruct (filter _ _); [by apply elem_of_nil in Hin|simpl; lia].
Qed.

Lemma flake_count_le c i :
  wf_graph (graph c) → i < len c → flake_count c i ≤ sub_vcount c i.
Proof.
  intros Hwf Hi. unfold flake_count, sub_vcount, subgraph_vertices.
  apply length_filter_impl. intros v _ Hfl.
  unfold flake_test in Hfl. apply bool_decide_eq_true in Hfl. simpl in Hfl.
  apply (credit_nonzero_member c i v Hwf Hi). intros Hz.
  fold (credit_of c i v) in Hz. rewrite Hz, of_nat_0 in Hfl.
  apply Qclt_not_le in Hfl. apply Hfl.
  apply Qcdiv_nonneg; [apply of_nat_nonneg|done].
Qed.

(** X9: when vertex 0 has an edge, [maximum_out_degree_fraction] returns for
    every cluster the largest ratio among the vertices of nonzero degree. *)
Lemma maximum_out_degree_fraction_first_connected (c : Cover) :
  wf_graph (graph c) → degree_of c 0 ≠ 0 →
  ∃ rv, maximum_out_degree_fraction c = Ok rv ∧ length rv = len c ∧
    ∀ i, i < len c →
      ∃ m, rv !! i = Some (Fin m)
        ∧ (∃ v, v < vcount (graph c) ∧ ratio_at c i v = Fin m)
        ∧ (∀ v q, v < vcount (graph c) → ratio_at c i v = Fin q → (q ≤ m)%Qc).
Proof.
  intros Hwf Hd. rewrite maximum_out_degree_fraction_closed by done.
  pose proof (degree_nonzero_in_range c 0 Hwf Hd) as Hn.
  assert (∀ i, ∃ m,
    py_max (ratio_at c i <$> seq 0 (vcount (graph c))) = Ok (Fin m)
    ∧ (∃ v, v < vcount (graph c) ∧ ratio_at c i v = Fin m)
    ∧ (∀ v q, v < vcount (graph c) → ratio_at c i v = Fin q → (q ≤ m)%Qc))
    as Hmax.
  { intros i. destruct (vcount (graph c)) as [|n] eqn:HN; [lia|].
    rewrite <-cons_seq, fmap_cons.
    unfold ratio_at at 1. rewrite decide_True by done. unfold py_max.
    match goal with |- context [fold_left _ ?l (Fin ?x)] =>
      destruct (fold_max_fin l x) as (m & -> & Hin & Hle) end.
    { apply Forall_fmap, Forall_forall. intros v _. simpl.
      unfold ratio_at. case_decide; eauto. }
    assert (∀ y, y ∈ ratio_at c i <$> seq 0 (S n) ↔
                 ∃ v, v < S n ∧ ratio_at c i v = y) as Hel.
    { intros y. rewrite list_elem_of_fmap. setoid_rewrite elem_of_seq. split.
      - intros (v & -> & _ & Hv). exists v. split; [lia|done].
      - intros (v & Hv & <-). exists v. split; [done|lia]. }
    rewrite <-cons_seq, fmap_cons in Hel.
    unfold ratio_at at 1 in Hel. rewrite decide_True in Hel by done.
    exists m. split; [done|]. split.
    - by apply Hel in Hin.
    - intros v q Hv Hq. apply Hle, Hel. eauto. }
  destruct (for_each_total
    (λ i, py_max (ratio_at c i <$> seq 0 (vcount (graph c))))
    (λ i y, ∃ m, y = Fin m
       ∧ (∃ v, v < vcount (graph c) ∧ ratio_at c i v = Fin m)
       ∧ (∀ v q, v < vcount (graph c) → ratio_at c i v = Fin q → (q ≤ m)%Qc))
    (seq 0 (len c))) as (rv & Hrv & Hall).
  { intros i _. destruct (Hmax i) as (m & Hm & H1 & H2). eauto 10. }
  exists rv. split; [done|].
  pose proof (Forall2_length _ _ _ Hall) as Hlen. rewrite length_seq in Hlen.
  split; [done|]. intros i Hi.
  destruct (lookup_lt_is_Some_2 rv i) as [y Hy]; [lia|].
  destruct (Forall2_lookup_lr _ _ _ i i y Hall (lookup_seq_lt 0 _ _ Hi) Hy)
    as (m & -> & H1 & H2).
  eauto.
Qed.

Lemma Forall2_fmap_same {A B C} (R : B → C → Prop) (f : A → B) (g : A → C) (l : list A) :
  (∀ x, R (f x) (g x)) → Forall2 R (f <$> l) (g <$> l).
Proof. intros HR. induction l; constructor; auto. Qed.

Lemma NoDup_count {A} `{EqDecision A} (l : list A) :
  (∀ x, length (filter (λ y, y = x) l) ≤ 1) → NoDup l.
Proof.
  induction l as [|x l IH]; intros Hc; [constructor|].
  apply NoDup_cons. split.
  - intros Hx. specialize (Hc x). rewrite filter_cons_True in Hc by done.
    assert (x ∈ filter (λ y, y = x) l) as Hin by (by apply list_elem_of_filter).
    destruct (filter _ l); [by apply elem_of_nil in Hin|]. simpl in Hc. lia.
  - apply IH. intros y. specialize (Hc y). rewrite filter_cons in Hc.
    destruct (decide (x = y)); simpl in Hc; lia.
Qed.

Lemma average_bounded c i v :
  wf_graph (graph c) → i < len c → v ∈ cluster c i → degree_of c v ≠ 0 →
  NoDup (boundary_edges c i) →
  ∃ q, np_truediv (nansum (ratio_at c i <$> seq 0 (vcount (graph c))))
         (of_nat (sub_vcount c i)) = Fin q
       ∧ (0 ≤ q ≤ 1)%Qc.
Proof.
  intros Hwf Hi Hv Hd Hnd.
  destruct (nansum_bound (ratio_at c i <$> seq 0 (vcount (graph c)))
              ((λ v, if decide (v ∈ cluster c i) then 1 else 0)
                 <$> seq 0 (vcount (graph c)))) as (s & -> & Hs1 & Hs2).
  { apply Forall2_fmap_same. intros w. by apply ratio_at_bounded. }
  rewrite sum_list_indicator in Hs2. fold (subgraph_vertices (graph c) (cluster c i)) in Hs2.
  fold (sub_vcount c i) in Hs2.
  assert (0 < sub_vcount c i) as Hpos.
  { eapply sub_vcount_pos; [done|]. by apply degree_nonzero_in_range. }
  assert (0 < of_nat (sub_vcount c i))%Qc as Hpos'.
  { rewrite <-of_nat_0. by apply of_nat_lt. }
  unfold np_truediv. rewrite decide_False.
  2:{ rewrite of_nat_eq_0. lia. }
  eexists. split; [done|].
  split; [by apply Qcdiv_nonneg|by apply Qcdiv_le_1].
Qed.

Lemma flake_bounded c i v :
  wf_graph (graph c) → i < len c → v ∈ cluster c i → v < vcount (graph c) →
  ∃ q, truediv (of_nat (flake_count c i)) (of_nat (sub_vcount c i)) = Ok (Fin q)
       ∧ (0 ≤ q ≤ 1)%Qc.
Proof.
  intros Hwf Hi Hv Hn.
  pose proof (sub_vcount_pos c i v Hv Hn) as Hpos.
  assert (0 < of_nat (sub_vcount c i))%Qc as Hpos'.
  { rewrite <-of_nat_0. by apply of_nat_lt. }
  rewrite truediv_nonzero by (rewrite of_nat_eq_0; lia).
  eexists. split; [done|]. split.
  - apply Qcdiv_nonneg; [apply of_nat_nonneg|done].
  - apply Qcdiv_le_1; [|done]. apply of_nat_le. by apply flake_count_le.
Qed.

Lemma NoDup_boundary_edges c i :
  wf_graph (graph c) → i < len c → Forall NoDup (clusters c) →
  NoDup (boundary_edges c i).
Proof.
  intros Hwf Hi Hnd. apply NoDup_count. intros e. by apply count_boundary_edges.
Qed.

(** C6, as the code has it.  [average_out_degree_fraction] always returns,
    and when every cluster lists a vertex at most once its value for cluster
    [i] lies in [0,1] whenever a vertex of the cluster has nonzero degree.
    [flake_out_degree_fraction] returns, with every value in [0,1], when
    every cluster holds a vertex of the graph, and raises the division error
    when some cluster holds none. *)
Theorem out_degree_fraction_bounds (c : Cover) :
  wf_graph (graph c) →
  (∃ avg, average_out_degree_fraction c = Ok avg ∧ length avg = len c ∧
     (Forall NoDup (clusters c) →
      ∀ i v, i < len c → v ∈ cluster c i → degree_of c v ≠ 0 →
        ∃ q, avg !! i = Some (Fin q) ∧ (0 ≤ q ≤ 1)%Qc))
  ∧ ((∀ i, i < len c → ∃ v, v ∈ cluster c i ∧ v < vcount (graph c)) →
     ∃ fl, flake_out_degree_fraction c = Ok fl ∧ length fl = len c ∧
       ∀ i, i < len c → ∃ q, fl !! i = Some (Fin q) ∧ (0 ≤ q ≤ 1)%Qc)
  ∧ ((∃ i, i < len c ∧ sub_vcount c i = 0) →
     flake_out_degree_fraction c = Raise ZeroDivisionError).
Proof.
  intros Hwf. split; [|split].
  - eexists. split; [by apply average_out_degree_fraction_closed|].
    split; [by rewrite length_fmap, length_seq|].
    intros Hnd i v Hi Hv Hd.
    destruct (average_bounded c i v Hwf Hi Hv Hd) as (q & Hq & Hb);
      [by apply NoDup_boundary_edges|].
    exists q. split; [|done].
    by rewrite list_lookup_fmap, lookup_seq_lt, <-Hq.
  - intros Hne. rewrite flake_out_degree_fraction_closed by done.
    destruct (for_each_total
      (λ i, truediv (of_nat (flake_count c i)) (of_nat (sub_vcount c i)))
      (λ i y, ∃ q, y = Fin q ∧ (0 ≤ q ≤ 1)%Qc) (seq 0 (len c)))
      as (fl & Hfl & Hall).
    { intros i [_ Hi]%elem_of_seq. destruct (Hne i Hi) as (v & Hv & Hn).
      destruct (flake_bounded c i v Hwf Hi Hv Hn) as (q & Hq & Hb). eauto. }
    exists fl. split; [done|].
    pose proof (Forall2_length _ _ _ Hall) as Hlen. rewrite length_seq in Hlen.
    split; [done|]. intros i Hi.
    destruct (lookup_lt_is_Some_2 fl i) as [y Hy]; [lia|].
    destruct (Forall2_lookup_lr _ _ _ i i y Hall (lookup_seq_lt 0 _ _ Hi) Hy)
      as (q & -> & Hb).
    eauto.
  - intros (i & Hi & Hsub). rewrite flake_out_degree_fraction_closed by done.
    apply for_each_raise.
    + intros j _. apply truediv_cases.
    + exists i. split; [apply elem_of_seq; lia|].
      simpl. rewrite Hsub, of_nat_0. apply truediv_zero.
Qed.

Lemma out_degree_fraction_bounds_witness :
  ∃ avg, average_out_degree_fraction Examples.isolated_first = Ok avg
    ∧ ∃ q, avg !! 0 = Some (Fin q) ∧ (0 ≤ q ≤ 1)%Qc.
Proof.
  destruct (out_degree_fraction_bounds Examples.isolated_first)
    as [(avg & Havg & _ & H) _]; [solve_wf|].
  exists avg. split; [exact Havg|].
  apply (H ltac:(by_evaluation) 0 1); [vm_compute; lia|by_evaluation|vm_compute; lia].
Defined.

(** C6 as stated fails on a cover with an empty cluster: the flake
    out-degree fraction of the empty cluster is the integer division 0/0, and
    [flake_out_degree_fraction] raises instead of returning a value in
    [0,1]. *)
Lemma flake_out_degree_fraction_raises :
  cluster Examples.with_empty_cluster 0 = []
  ∧ flake_out_degree_fraction Examples.with_empty_cluster = Raise ZeroDivisionError.
Proof. split; by vm_compute. Qed.

Section aggregator_twice.
Context {GraphMetrics : Type}.
Context (graph_metrics_of : Graph → GraphMetrics).
Context (median_of : GraphMetrics → pyfloat).

Abbreviation CoverObj := (@CoverObj GraphMetrics).
Abbreviation Report := (@Report GraphMetrics).

Lemma compute_metrics_cached (o : CoverObj) gm :
  graph_metrics o = Some gm →
  compute_metrics graph_metrics_of median_of o
  = match calculators median_of gm (cover_of o) with
    | Ok r =>
        add_subgraphs graph_metrics_of (seq 0 (len (cover_of o)))
          (mkCoverObj (cover_of o) (Some gm) (Some r))
    | Raise e => (o, Raise e)
    end.
Proof.
  intros Hgm. unfold compute_metrics, calculators, fomd, bindM at 1.
  unfold graph_compute_metrics at 1. rewrite Hgm.
  unfold bindM at 1. unfold bindM at 1. unfold graph_compute_metrics. rewrite Hgm.
  unfold pure at 1.
  destruct (for_each _ _) as [m1|]; [|done]. rewrite bind_Ok.
  unfold bindM at 1, pure at 1.
  destruct (expansion _) as [m2|]; [|done]. rewrite bind_Ok.
  unfold bindM at 1, pure at 1.
  destruct (cut_ratio _) as [m3|]; [|done]. rewrite bind_Ok.
  unfold bindM at 1, pure at 1.
  destruct (conductance _) as [m4|]; [|done]. rewrite bind_Ok.
  unfold bindM at 1, pure at 1.
  destruct (normalized_cut _) as [m5|]; [|done]. rewrite bind_Ok.
  unfold bindM at 1, pure at 1.
  destruct (maximum_out_degree_fraction _) as [m6|]; [|done]. rewrite bind_Ok.
  unfold bindM at 1, pure at 1.
  destruct (average_out_degree_fraction _) as [m7|]; [|done]. rewrite bind_Ok.
  unfold bindM at 1, pure at 1.
  destruct (flake_out_degree_fraction _) as [m8|]; [|done]. rewrite bind_Ok.
  unfold bindM at 1, pure at 1.
  destruct (separability _) as [m9|]; [|done]. rewrite bind_Ok.
  unfold bindM at 1, set_metrics at 1. unfold bindM at 1, pure at 1. simpl.
  by rewrite Hgm.
Qed.

Lemma compute_metrics_first (o : CoverObj) :
  graph_metrics o = None →
  compute_metrics graph_metrics_of median_of o
  = compute_metrics graph_metrics_of median_of
      (mkCoverObj (cover_of o) (Some (graph_metrics_of (graph (cover_of o))))
         (metrics o)).
Proof.
  intros Hgm. unfold compute_metrics.
  set (k := λ g_metrics : GraphMetrics, _).
  unfold bindM, graph_compute_metrics. by rewrite Hgm.
Qed.

Lemma add_subgraphs_attributes ids (o o1 : CoverObj) r :
  add_subgraphs graph_metrics_of ids o = (o1, r) →
  cover_of o1 = cover_of o ∧ graph_metrics o1 = graph_metrics o.
Proof.
  revert o. induction ids as [|i ids IH]; intros o; simpl.
  - unfold ret. by intros [= <- <-].
  - destruct (metrics o) as [rep|]; [|by intros [= <- <-]].
    destruct (add_subgraph _ _ _ _) as [rep'|]; [|by intros [= <- <-]].
    unfold bindM, set_metrics. intros H%IH. done.
Qed.

Lemma compute_metrics_again_cached (o : CoverObj) gm :
  graph_metrics o = Some gm →
  ∀ o1 r1, compute_metrics graph_metrics_of median_of o = (o1, r1) →
           compute_metrics graph_metrics_of median_of o1 = (o1, r1).
Proof.
  intros Hgm o1 r1 Hrun. pose proof Hrun as Hrun'.
  rewrite (compute_metrics_cached o gm Hgm) in Hrun.
  destruct (calculators median_of gm (cover_of o)) as [rep|e] eqn:Hcalc.
  - destruct (add_subgraphs_attributes _ _ _ _ Hrun) as [Hc Hg]. simpl in Hc, Hg.
    rewrite (compute_metrics_cached o1 gm Hg), Hc, Hcalc. done.
  - injection Hrun as <- <-. done.
Qed.

End aggregator_twice.

(** A run that returns: two joined vertices, each its own cluster, with a
    graph facility that reports the edge count and a median of 1. *)
Example compute_metrics_returns :
  let run := compute_metrics (λ g, ecount g) (λ _, Fin 1%Qc)
               (mkCoverObj (mkCover (mkGraph 2 [(0, 1)] false) [[0]; [1]]) None None) in
  run.2 = Ok tt
  ∧ graph_metrics run.1 = Some 1
  ∧ (Subgraphs <$> metrics run.1) = Some [0; 0]
  ∧ (Flake_Out_Degree_Fraction <$> metrics run.1) = Some [Fin 1%Qc; Fin 1%Qc].
Proof.
  split; [by vm_compute|]. split; [by vm_compute|]. split; [by vm_compute|].
  by_evaluation.
Qed.

(** C9: whatever the cover object, running [compute_metrics] on the object
    that a first run left behind ends in the same way (the same exception, or
    a normal return) and leaves the same object: the report attached to the
    cover by the second run is the report of the first, value by value. *)
Theorem compute_metrics_twice {GraphMetrics : Type}
    (graph_metrics_of : Graph → GraphMetrics)
    (median_of : GraphMetrics → pyfloat)
    (o : @CoverObj GraphMetrics) :
  compute_metrics graph_metrics_of median_of
    (compute_metrics graph_metrics_of median_of o).1
  = compute_metrics graph_metrics_of median_of o
  ∧ metrics (compute_metrics graph_metrics_of median_of
               (compute_metrics graph_metrics_of median_of o).1).1
    = metrics (compute_metrics graph_metrics_of median_of o).1.
Proof.
  assert (compute_metrics graph_metrics_of median_of
            (compute_metrics graph_metrics_of median_of o).1
          = compute_metrics graph_metrics_of median_of o) as Heq.
  { destruct (graph_metrics o) as [gm|] eqn:Hgm.
    - destruct (compute_metrics graph_metrics_of median_of o) as [o1 r1] eqn:Hrun.
      simpl. exact (compute_metrics_again_cached _ _ o gm Hgm o1 r1 Hrun).
    - rewrite (compute_metrics_first _ _ o Hgm).
      destruct (compute_metrics _ _ (mkCoverObj _ _ _)) as [o1 r1] eqn:Hrun.
      simpl.
      exact (compute_metrics_again_cached _ _ (mkCoverObj _ _ _) _ eq_refl o1 r1 Hrun). }
  split; [done|]. by rewrite Heq.
Qed.

(** * Further properties of the calculators *)

(** ** Results of the per-cluster loops *)

Lemma for_each_cases {A B} (f : A → result B) (e : exn) (xs : list A) :
  (∀ x, x ∈ xs → (∃ y, f x = Ok y) ∨ f x = Raise e) →
  (∃ ys, for_each f xs = Ok ys) ∨ for_each f xs = Raise e.
Proof.
  induction xs as [|x xs IH]; intros Hf; [left; by exists []|].
  simpl. destruct (Hf x) as [[y ->]| ->]; [by left| |by right].
  destruct IH as [[ys ->]| ->]; [intros z Hz; apply Hf; by right| |by right].
  left. by eexists.
Qed.

Lemma for_each_Ok_elem {A B} (f : A → result B) (xs : list A) (ys : list B) x :
  for_each f xs = Ok ys → x ∈ xs → ∃ y, f x = Ok y.
Proof.
  intros Hf%for_each_inv Hx. apply list_elem_of_lookup in Hx as [k Hk].
  destruct (Forall2_lookup_l _ _ _ _ _ Hf Hk) as (y & _ & Hy). eauto.
Qed.

Lemma for_each_lookup {A B} (f : A → result B) (xs : list A) (ys : list B) k x y :
  for_each f xs = Ok ys → xs !! k = Some x → ys !! k = Some y → f x = Ok y.
Proof.
  intros Hf%for_each_inv Hx Hy. by apply (Forall2_lookup_lr _ _ _ k x y Hf).
Qed.

Lemma of_Z_eq_0 z : of_Z z = 0%Qc ↔ z = 0%Z.
Proof. unfold of_Z. by rewrite <-Z2Qc_inj_0, Z2Qc_inj_iff. Qed.

Lemma truediv_Ok_inv a b y :
  truediv a b = Ok y → b ≠ 0%Qc ∧ y = Fin (a / b)%Qc.
Proof. unfold truediv. case_decide; [done|]. by intros [= <-]. Qed.

Lemma of_nat_pos n : 0 < n → (0 < of_nat n)%Qc.
Proof. intros Hn. rewrite <-of_nat_0. by apply of_nat_lt. Qed.

Lemma int_le_ecount c i : int c i ≤ ecount (graph c).
Proof.
  unfold int, subgraph, getitem. destruct (clusters c !! i); simpl; [|lia].
  unfold ecount. simpl. rewrite length_map. apply length_filter.
Qed.

(** X1: [expansion] returns ext(i) / size(i) for every cluster when no
    cluster is empty, and raises the division error, for the whole call, as
    soon as one cluster lists no vertex. *)
Theorem expansion_formula (c : Cover) :
  wf_graph (graph c) →
  ((∀ i, i < len c → size_of c i ≠ 0) →
   expansion c
   = Ok ((λ i, Fin (1 * of_nat (ext c i) / of_nat (size_of c i))%Qc)
           <$> seq 0 (len c)))
  ∧ ((∃ i, i < len c ∧ size_of c i = 0) →
     expansion c = Raise ZeroDivisionError).
Proof.
  intros Hwf. rewrite expansion_closed by done. split.
  - intros Hnz. apply for_each_ok. intros i [_ Hi]%elem_of_seq.
    unfold expansion_at. apply truediv_nonzero.
    rewrite of_nat_eq_0. by apply Hnz.
  - intros (i & Hi & Hsz). apply for_each_raise.
    + intros j _. apply truediv_cases.
    + exists i. split; [apply elem_of_seq; lia|].
      unfold expansion_at. rewrite Hsz, of_nat_0. apply truediv_zero.
Qed.

Lemma expansion_formula_witness :
  expansion Examples.triangle
  = Ok ((λ i, Fin (1 * of_nat (ext Examples.triangle i)
                   / of_nat (size_of Examples.triangle i))%Qc)
          <$> seq 0 (len Examples.triangle)).
Proof.
  refine (proj1 (expansion_formula Examples.triangle _) _).
  - solve_wf.
  - intros i Hi. assert (i = 0 ∨ i = 1) as [-> | ->] by (vm_compute in Hi; lia);
      vm_compute; lia.
Defined.

(** X2: [cut_ratio] returns ext(i) / (size(i) * (N - size(i))) for every
    cluster when every cluster has a size other than 0 and N, and raises the
    division error, for the whole call, as soon as one cluster is empty or
    has as many entries as the graph has vertices. *)
Theorem cut_ratio_formula (c : Cover) :
  wf_graph (graph c) →
  ((∀ i, i < len c → size_of c i ≠ 0 ∧ size_of c i ≠ vcount (graph c)) →
   cut_ratio c
   = Ok ((λ i, Fin (1 * of_nat (ext c i)
                    / of_Z (Z.of_nat (size_of c i)
                            * (Z.of_nat (vcount (graph c))
                               - Z.of_nat (size_of c i))))%Qc)
           <$> seq 0 (len c)))
  ∧ ((∃ i, i < len c ∧ (size_of c i = 0 ∨ size_of c i = vcount (graph c))) →
     cut_ratio c = Raise ZeroDivisionError).
Proof.
  intros Hwf. rewrite cut_ratio_closed by done. split.
  - intros Hnz. apply for_each_ok. intros i [_ Hi]%elem_of_seq.
    unfold cut_ratio_at. apply truediv_nonzero.
    rewrite of_Z_eq_0. destruct (Hnz i Hi). nia.
  - intros (i & Hi & Hsz). apply for_each_raise.
    + intros j _. apply truediv_cases.
    + exists i. split; [apply elem_of_seq; lia|].
      unfold cut_ratio_at.
      replace (of_Z _) with 0%Qc; [apply truediv_zero|].
      symmetry. apply of_Z_eq_0. destruct Hsz as [-> | ->]; lia.
Qed.

Lemma cut_ratio_formula_witness :
  cut_ratio Examples.triangle
  = Ok ((λ i, Fin (1 * of_nat (ext Examples.triangle i)
                   / of_Z (Z.of_nat (size_of Examples.triangle i)
                           * (Z.of_nat (vcount (graph Examples.triangle))
                              - Z.of_nat (size_of Examples.triangle i))))%Qc)
          <$> seq 0 (len Examples.triangle)).
Proof.
  refine (proj1 (cut_ratio_formula Examples.triangle _) _).
  - solve_wf.
  - intros i Hi. assert (i = 0 ∨ i = 1) as [-> | ->] by (vm_compute in Hi; lia);
      vm_compute; lia.
Defined.

(** X3: whenever [conductance] returns, it returns one value per cluster and
    every value lies between 0 and 1. *)
Theorem conductance_in_unit_interval (c : Cover) (cv : list pyfloat) :
  wf_graph (graph c) → conductance c = Ok cv →
  length cv = len c
  ∧ ∀ i x, cv !! i = Some x → ∃ q, x = Fin q ∧ (0 ≤ q ≤ 1)%Qc.
Proof.
  intros Hwf Hcv. rewrite conductance_closed in Hcv by done.
  pose proof (for_each_length _ _ _ Hcv) as Hlen. rewrite length_seq in Hlen.
  split; [done|]. intros i x Hx.
  assert (i < len c) as Hi by (rewrite <-Hlen; by eapply lookup_lt_Some).
  pose proof (for_each_lookup _ _ _ i i x Hcv (lookup_seq_lt 0 _ _ Hi) Hx) as Hat.
  apply truediv_Ok_inv in Hat as [Hnz ->]. eexists. split; [done|].
  rewrite of_nat_eq_0 in Hnz.
  split.
  - apply Qcdiv_nonneg; [apply of_nat_nonneg|apply of_nat_pos; lia].
  - apply Qcdiv_le_1; [apply of_nat_le; lia|apply of_nat_pos; lia].
Qed.

Lemma conductance_in_unit_interval_witness :
  ∃ cv, conductance Examples.triangle = Ok cv
    ∧ ∀ i x, cv !! i = Some x → ∃ q, x = Fin q ∧ (0 ≤ q ≤ 1)%Qc.
Proof.
  eexists. split; [vm_compute; reflexivity|].
  refine (proj2 (conductance_in_unit_interval Examples.triangle _ _ _)).
  - solve_wf.
  - vm_compute; reflexivity.
Defined.

Lemma of_nat_double_add n e : of_nat (2 * n + e) = (2 * of_nat n + of_nat e)%Qc.
Proof.
  unfold of_nat. rewrite Nat2Z.inj_add, Nat2Z.inj_mul, Z2Qc_inj_add, Z2Qc_inj_mul.
  change (Z.of_nat 2) with 2%Z. by rewrite Z2Qc_inj_2.
Qed.

Lemma second_term_bounded c i y :
  second_term c i = Ok y → ∃ q, y = Fin q ∧ (0 ≤ q ≤ 1)%Qc.
Proof.
  unfold second_term. pose proof (int_le_ecount c i) as Hle.
  replace (of_Z _) with (of_nat (2 * (ecount (graph c) - int c i) + ext c i)).
  2:{ unfold of_nat, of_Z. f_equal. lia. }
  intros [Hnz ->]%truediv_Ok_inv. rewrite of_nat_eq_0 in Hnz.
  eexists. split; [done|]. split.
  - apply Qcdiv_nonneg; [apply of_nat_nonneg|apply of_nat_pos; lia].
  - apply Qcdiv_le_1; [apply of_nat_le; lia|apply of_nat_pos; lia].
Qed.

Lemma conductance_at_bounded c i y :
  conductance_at c i = Ok y → ∃ q, y = Fin q ∧ (0 ≤ q ≤ 1)%Qc.
Proof.
  unfold conductance_at. intros [Hnz ->]%truediv_Ok_inv.
  rewrite of_nat_eq_0 in Hnz. eexists. split; [done|]. split.
  - apply Qcdiv_nonneg; [apply of_nat_nonneg|apply of_nat_pos; lia].
  - apply Qcdiv_le_1; [apply of_nat_le; lia|apply of_nat_pos; lia].
Qed.

(** X4: whenever [normalized_cut] returns, [conductance] returns too, and
    the normalized cut of every cluster is at least its conductance, at most
    its conductance plus 1, and lies between 0 and 2. *)
Theorem normalized_cut_bounds (c : Cover) (rv : list pyfloat) :
  wf_graph (graph c) → normalized_cut c = Ok rv →
  ∃ cv, conductance c = Ok cv ∧ length rv = len c ∧
    ∀ i, i < len c →
      ∃ p q, cv !! i = Some (Fin p) ∧ rv !! i = Some (Fin q)
        ∧ (p ≤ q ≤ p + 1)%Qc ∧ (0 ≤ q ≤ 2)%Qc.
Proof.
  intros Hwf. rewrite normalized_cut_closed by done.
  destruct (conductance c) as [cv|] eqn:Hcv; [|done]. rewrite bind_Ok.
  destruct (for_each _ _) as [xs|] eqn:Hxs; [|done]. rewrite bind_Ok.
  intros [= <-]. exists cv. split; [done|].
  rewrite conductance_closed in Hcv by done.
  pose proof (for_each_length _ _ _ Hcv) as Hlc.
  pose proof (for_each_length _ _ _ Hxs) as Hlx.
  rewrite length_seq in Hlc, Hlx.
  split; [rewrite length_zip_with; lia|].
  intros i Hi.
  destruct (lookup_lt_is_Some_2 cv i) as [y Hy]; [lia|].
  destruct (lookup_lt_is_Some_2 xs i) as [z Hz]; [lia|].
  pose proof (for_each_lookup _ _ _ i i y Hcv (lookup_seq_lt 0 _ _ Hi) Hy) as Hcy.
  pose proof (for_each_lookup _ _ _ i i z Hxs (lookup_seq_lt 0 _ _ Hi) Hz) as Hxz.
  apply conductance_at_bounded in Hcy as (p & -> & Hp1 & Hp2).
  apply second_term_bounded in Hxz as (t & -> & Ht1 & Ht2).
  exists p, (p + t)%Qc. split; [done|].
  split; [by rewrite lookup_zip_with, Hy, Hz|].
  split; split.
  - rewrite <-(Qcplus_0_r p) at 1. by apply Qcplus_le_mono_l.
  - by apply Qcplus_le_mono_l.
  - by apply Qcplus_nonneg_nonneg.
  - by apply Qcplus_le_compat.
Qed.

Lemma normalized_cut_bounds_witness :
  ∃ rv cv, normalized_cut Examples.triangle = Ok rv
    ∧ conductance Examples.triangle = Ok cv
    ∧ length rv = len Examples.triangle.
Proof.
  eexists.
  destruct (normalized_cut_bounds Examples.triangle _
              ltac:(solve_wf) ltac:(vm_compute; reflexivity))
    as (cv & Hcv & Hlen & _).
  exists cv. split; [vm_compute; reflexivity|]. split; [exact Hcv|exact Hlen].
Defined.

(** X5: conductance and separability determine each other: whenever both
    calls return, the values x and y of a cluster satisfy x * (2*y + 1) = 1. *)
Theorem conductance_separability (c : Cover) (cv sv : list pyfloat) :
  wf_graph (graph c) → conductance c = Ok cv → separability c = Ok sv →
  length cv = len c ∧ length sv = len c
  ∧ ∀ i, i < len c →
      ∃ x y, cv !! i = Some (Fin x) ∧ sv !! i = Some (Fin y)
        ∧ (x * (2 * y + 1) = 1)%Qc.
Proof.
  intros Hwf Hcv Hsv.
  rewrite conductance_closed in Hcv by done.
  rewrite separability_closed in Hsv by done.
  pose proof (for_each_length _ _ _ Hcv) as Hlc.
  pose proof (for_each_length _ _ _ Hsv) as Hls.
  rewrite length_seq in Hlc, Hls. split; [done|]. split; [done|].
  intros i Hi.
  destruct (lookup_lt_is_Some_2 cv i) as [x Hx]; [lia|].
  destruct (lookup_lt_is_Some_2 sv i) as [y Hy]; [lia|].
  pose proof (for_each_lookup _ _ _ i i x Hcv (lookup_seq_lt 0 _ _ Hi) Hx) as Hcx.
  pose proof (for_each_lookup _ _ _ i i y Hsv (lookup_seq_lt 0 _ _ Hi) Hy) as Hsy.
  apply truediv_Ok_inv in Hcx as [Hnz1 ->]. apply truediv_Ok_inv in Hsy as [Hnz2 ->].
  do 2 eexists. split; [done|]. split; [done|].
  rewrite of_nat_double_add in *. field. done.
Qed.

Lemma conductance_separability_witness :
  ∃ cv sv, conductance Examples.triangle = Ok cv
    ∧ separability Examples.triangle = Ok sv
    ∧ length cv = len Examples.triangle ∧ length sv = len Examples.triangle.
Proof.
  do 2 eexists.
  destruct (conductance_separability Examples.triangle _ _
              ltac:(solve_wf) ltac:(vm_compute; reflexivity)
              ltac:(vm_compute; reflexivity))
    as (Hc & Hs & _).
  split; [vm_compute; reflexivity|]. split; [vm_compute; reflexivity|].
  split; [exact Hc|exact Hs].
Defined.

(** X6: the cut ratio is the expansion divided by the number of vertices
    outside the cluster: whenever both calls return, the values x (expansion)
    and y (cut ratio) of a cluster satisfy y * (N - size(i)) = x. *)
Theorem cut_ratio_expansion (c : Cover) (ev rv : list pyfloat) :
  wf_graph (graph c) → expansion c = Ok ev → cut_ratio c = Ok rv →
  length ev = len c ∧ length rv = len c
  ∧ ∀ i, i < len c →
      ∃ x y, ev !! i = Some (Fin x) ∧ rv !! i = Some (Fin y)
        ∧ (y * of_Z (Z.of_nat (vcount (graph c)) - Z.of_nat (size_of c i)) = x)%Qc.
Proof.
  intros Hwf Hev Hrv.
  rewrite expansion_closed in Hev by done.
  rewrite cut_ratio_closed in Hrv by done.
  pose proof (for_each_length _ _ _ Hev) as Hle.
  pose proof (for_each_length _ _ _ Hrv) as Hlr.
  rewrite length_seq in Hle, Hlr. split; [done|]. split; [done|].
  intros i Hi.
  destruct (lookup_lt_is_Some_2 ev i) as [x Hx]; [lia|].
  destruct (lookup_lt_is_Some_2 rv i) as [y Hy]; [lia|].
  pose proof (for_each_lookup _ _ _ i i x Hev (lookup_seq_lt 0 _ _ Hi) Hx) as Hex.
  pose proof (for_each_lookup _ _ _ i i y Hrv (lookup_seq_lt 0 _ _ Hi) Hy) as Hry.
  apply truediv_Ok_inv in Hex as [Hnz1 ->]. apply truediv_Ok_inv in Hry as [Hnz2 ->].
  do 2 eexists. split; [done|]. split; [done|].
  unfold of_Z in *. rewrite Z2Qc_inj_mul in *. fold (of_nat (size_of c i)) in *.
  assert (Qc_of_Z (Z.of_nat (vcount (graph c)) - Z.of_nat (size_of c i)) ≠ 0%Qc).
  { intros Hz. apply Hnz2. rewrite Hz. apply Qcmult_0_r. }
  field. done.
Qed.

Lemma cut_ratio_expansion_witness :
  ∃ ev rv, expansion Examples.triangle = Ok ev
    ∧ cut_ratio Examples.triangle = Ok rv
    ∧ length ev = len Examples.triangle ∧ length rv = len Examples.triangle.
Proof.
  do 2 eexists.
  destruct (cut_ratio_expansion Examples.triangle _ _
              ltac:(solve_wf) ltac:(vm_compute; reflexivity)
              ltac:(vm_compute; reflexivity))
    as (He & Hr & _).
  split; [vm_compute; reflexivity|]. split; [vm_compute; reflexivity|].
  split; [exact He|exact Hr].
Defined.

(** ** The boundary collections taken together *)

Lemma sum_list_fmap_add {A} (f g : A → nat) (l : list A) :
  sum_list ((λ x, f x + g x) <$> l) = sum_list (f <$> l) + sum_list (g <$> l).
Proof. induction l as [|x l IH]; [done|]. rewrite !fmap_cons. simpl. lia. Qed.

Lemma sum_list_fmap_ext {A} (f g : A → nat) (l : list A) :
  (∀ x, x ∈ l → f x = g x) → sum_list (f <$> l) = sum_list (g <$> l).
Proof.
  induction l as [|x l IH]; intros Hfg; [done|].
  rewrite !fmap_cons. simpl. rewrite Hfg by left. rewrite IH; [done|].
  intros y Hy. apply Hfg. by right.
Qed.

Lemma sum_list_fmap_zero {A} (l : list A) : sum_list ((λ _, 0) <$> l) = 0.
Proof. induction l as [|x l IH]; [done|]. rewrite fmap_cons. simpl. lia. Qed.

Lemma length_filter_eq_seq (v k : nat) :
  v < k → length (filter (λ x, x = v) (seq 0 k)) = 1.
Proof.
  intros Hv. pose proof (length_filter_eq_NoDup (seq 0 k) v (NoDup_seq 0 k)) as Hle.
  assert (v ∈ filter (λ x, x = v) (seq 0 k)) as Hin.
  { apply list_elem_of_filter. split; [done|]. apply elem_of_seq. lia. }
  destruct (filter _ _); [by apply elem_of_nil in Hin|]. simpl in *. lia.
Qed.

(** Counting the occurrences of every id below [k] counts the whole list. *)
Lemma sum_count_below (ml : list nat) (k : nat) :
  Forall (λ cid, cid < k) ml →
  sum_list ((λ i, length (filter (λ cid, cid = i) ml)) <$> seq 0 k) = length ml.
Proof.
  induction 1 as [|cid ml Hcid Hml IH]; [simpl; apply sum_list_fmap_zero|].
  rewrite (sum_list_fmap_ext _
    (λ i, (if decide (i = cid) then 1 else 0)
          + length (filter (λ cid, cid = i) ml))).
  2:{ intros i _. rewrite filter_cons.
      destruct (decide (cid = i)), (decide (i = cid)); simpl; congruence. }
  rewrite sum_list_fmap_add, IH, (sum_list_indicator (λ i, i = cid)).
  rewrite length_filter_eq_seq by done. simpl. lia.
Qed.

Lemma length_appended_sum c e :
  sum_list ((λ i, length (Spec.appended c i e)) <$> seq 0 (len c))
  = length (mjoin (Spec.collected c e)).
Proof.
  assert (∀ v, sum_list ((λ i, length (filter (λ cid, cid = i)
                                         (membership_of (clusters c) v)))
                          <$> seq 0 (len c))
               = length (membership_of (clusters c) v)) as Hm.
  { intros v. apply sum_count_below, Forall_forall. intros cid Hcid.
    by apply membership_of_lt in Hcid. }
  unfold Spec.appended, Spec.collected. destruct (is_directed (graph c)).
  - rewrite (sum_list_fmap_ext _
      (λ i, length (filter (λ cid, cid = i)
                      (membership_of (clusters c) (source e))))).
    2:{ intros i _. rewrite bind_cons, length_app, length_bind_decide. simpl. lia. }
    rewrite Hm. simpl. by rewrite app_nil_r.
  - rewrite (sum_list_fmap_ext _
      (λ i, length (filter (λ cid, cid = i)
                      (membership_of (clusters c) (source e)))
            + length (filter (λ cid, cid = i)
                        (membership_of (clusters c) (target e))))).
    2:{ intros i _. rewrite !bind_cons, !length_app, !length_bind_decide.
        simpl. lia. }
    rewrite sum_list_fmap_add, !Hm. simpl.
    by rewrite app_nil_r, length_app.
Qed.

Lemma length_boundary_sum c (edges : list Edge) :
  sum_list ((λ i, length (edges ≫= Spec.appended c i)) <$> seq 0 (len c))
  = sum_list ((λ e, length (mjoin (Spec.collected c e))) <$> edges).
Proof.
  induction edges as [|e edges IH].
  - simpl. apply sum_list_fmap_zero.
  - rewrite (sum_list_fmap_ext _
      (λ i, length (Spec.appended c i e) + length (edges ≫= Spec.appended c i))).
    2:{ intros i _. by rewrite bind_cons, length_app. }
    rewrite sum_list_fmap_add, IH, length_appended_sum. by rewrite fmap_cons.
Qed.

(** X7: the boundary collections of all clusters together hold, for every
    edge that [crossing()] flags, as many entries as the membership list of
    its source has ids, plus, in an undirected graph, as many as that of its
    target has. *)
Theorem boundary_edges_total (c : Cover) :
  wf_graph (graph c) →
  sum_list (ext c <$> seq 0 (len c))
  = sum_list ((λ e, length (membership_of (clusters c) (source e))
                    + (if is_directed (graph c) then 0
                       else length (membership_of (clusters c) (target e))))
              <$> filter (λ e, isdisjoint (membership_of (clusters c) (source e))
                                 (membership_of (clusters c) (target e)) = true)
                    (es (graph c))).
Proof.
  intros Hwf.
  rewrite (sum_list_fmap_ext _
    (λ i, length (filter (λ e, is_crossing c e = true) (es (graph c))
                  ≫= Spec.appended c i))).
  2:{ intros i [_ Hi]%elem_of_seq. unfold ext.
      by rewrite boundary_edges_closed by done. }
  rewrite length_boundary_sum.
  apply sum_list_fmap_ext. intros e _. unfold Spec.collected.
  destruct (is_directed (graph c)); simpl; rewrite ?length_app, ?app_nil_r;
    simpl; lia.
Qed.

Lemma boundary_edges_total_witness :
  sum_list (ext Examples.triangle <$> seq 0 (len Examples.triangle)) = 2.
Proof.
  rewrite (boundary_edges_total Examples.triangle ltac:(solve_wf)).
  by vm_compute.
Defined.

Lemma list_nonempty_elem {A} (l : list A) : l ≠ [] → ∃ x, x ∈ l.
Proof. destruct l as [|x l]; [done|]. intros _. exists x. by left. Qed.

Lemma isdisjoint_false (m1 m2 : list nat) :
  isdisjoint m1 m2 = false → ∃ cid, cid ∈ m1 ∧ cid ∈ m2.
Proof.
  unfold isdisjoint. intros Hf%bool_decide_eq_false.
  apply not_Forall_Exists in Hf; [|apply _].
  apply Exists_exists in Hf as (cid & Hin & Hnn). exists cid. split; [done|].
  simpl in Hnn. by destruct (decide (cid ∈ m2)).
Qed.

(** X8: all boundary collections are empty exactly when every edge that
    [crossing()] flags has a source in no cluster and, if the graph is
    undirected, a target in no cluster; in an undirected graph this means
    that the two endpoints of every edge share a cluster or are both in no
    cluster. *)
Theorem no_boundary_iff (c : Cover) :
  wf_graph (graph c) →
  ((∀ i, i < len c → boundary_edges c i = []) ↔
   (∀ e, e ∈ es (graph c) →
      isdisjoint (membership_of (clusters c) (source e))
        (membership_of (clusters c) (target e)) = true →
      membership_of (clusters c) (source e) = []
      ∧ (is_directed (graph c) = false → membership_of (clusters c) (target e) = [])))
  ∧ (is_directed (graph c) = false →
     ((∀ i, i < len c → boundary_edges c i = []) ↔
      (∀ e, e ∈ es (graph c) →
         (∃ cid, cid ∈ membership_of (clusters c) (source e)
                 ∧ cid ∈ membership_of (clusters c) (target e))
         ∨ (membership_of (clusters c) (source e) = []
            ∧ membership_of (clusters c) (target e) = [])))).
Proof.
  intros Hwf.
  assert ((∀ i, i < len c → boundary_edges c i = []) ↔
   (∀ e, e ∈ es (graph c) →
      isdisjoint (membership_of (clusters c) (source e))
        (membership_of (clusters c) (target e)) = true →
      membership_of (clusters c) (source e) = []
      ∧ (is_directed (graph c) = false → membership_of (clusters c) (target e) = [])))
    as Hiff.
  { split.
    - intros Hempty e He Hcr. rewrite isdisjoint_true in Hcr.
      assert (∀ i, i < len c → e ∉ listed_edges c i) as Hnot.
      { intros i Hi. rewrite <-boundary_edges_closed, Hempty by done.
        apply not_elem_of_nil. }
      split.
      + destruct (decide (membership_of (clusters c) (source e) = []))
          as [|Hnil]; [done|].
        exfalso. apply list_nonempty_elem in Hnil as [i Hi].
        apply (Hnot i); [by eapply membership_of_lt|].
        apply elem_of_listed_edges. auto.
      + intros Hd.
        destruct (decide (membership_of (clusters c) (target e) = []))
          as [|Hnil]; [done|].
        exfalso. apply list_nonempty_elem in Hnil as [i Hi].
        apply (Hnot i); [by eapply membership_of_lt|].
        apply elem_of_listed_edges. auto.
    - intros Hall i Hi. rewrite boundary_edges_closed by done.
      destruct (listed_edges c i) as [|e l] eqn:Hb; [done|]. exfalso.
      assert (e ∈ listed_edges c i) as He by (rewrite Hb; by left).
      apply elem_of_listed_edges in He as (He & Hcr & Hm).
      rewrite <-isdisjoint_true in Hcr.
      destruct (Hall e He Hcr) as [Hs Ht].
      destruct Hm as [Hin|[Hd Hin]].
      + rewrite Hs in Hin. by apply elem_of_nil in Hin.
      + rewrite (Ht Hd) in Hin. by apply elem_of_nil in Hin. }
  split; [done|]. intros Hd. rewrite Hiff. split.
  - intros Hall e He.
    destruct (isdisjoint (membership_of (clusters c) (source e))
                (membership_of (clusters c) (target e))) eqn:Hcr.
    + right. destruct (Hall e He Hcr) as [Hs Ht]. auto.
    + left. by apply isdisjoint_false.
  - intros Hall e He Hcr. rewrite isdisjoint_true in Hcr.
    destruct (Hall e He) as [(cid & H1 & H2)|[Hs Ht]]; [|auto].
    by destruct (Hcr cid H1).
Qed.

Lemma no_boundary_iff_witness : boundary_edges Examples.two_pairs 0 = [].
Proof.
  apply (proj2 (proj2 (no_boundary_iff Examples.two_pairs ltac:(solve_wf)) eq_refl));
    [|vm_compute; lia].
  intros e He. left. exists (source e `div` 2). apply elem_of_es in He. simpl in He.
  destruct e as [[|[|k]] s t]; simpl in He; [| |done]; injection He as <- <-;
    split; by_evaluation.
Defined.

(** ** The out-degree fractions at the edges of their domain *)

Lemma credit_of_zero c i v :
  wf_graph (graph c) → i < len c → sub_vcount c i = 0 → credit_of c i v = 0.
Proof.
  intros Hwf Hi Hsub.
  destruct (decide (credit_of c i v = 0)) as [|Hne]; [done|]. exfalso.
  pose proof (credit_nonzero_member c i v Hwf Hi Hne) as Hv.
  assert (v < vcount (graph c)) as Hn.
  { unfold credit_of, credit in Hne.
    destruct (filter _ _) as [|e l] eqn:Hf; [done|].
    assert (e ∈ filter (λ e, node_index c i e = v) (boundary_edges c i)) as He
      by (rewrite Hf; by left).
    apply list_elem_of_filter in He as [<- He].
    pose proof (boundary_edges_in_range c i Hwf Hi) as Hr.
    eapply Forall_forall in Hr as [Hs Ht]; [|done].
    unfold node_index. case_decide; done. }
  pose proof (sub_vcount_pos c i v Hv Hn). lia.
Qed.

Lemma nansum_zero (l : list pyfloat) :
  Forall (λ x, x = NaN ∨ x = Fin 0%Qc) l → nansum l = Fin 0%Qc.
Proof.
  intros Hl.
  destruct (nansum_bound l ((λ _, 0) <$> l)) as (s & -> & Hs1 & Hs2).
  { induction Hl as [|x l Hx Hl IH]; [constructor|].
    rewrite fmap_cons. constructor; [|done].
    destruct Hx as [->| ->]; [by left|]. right. eexists. split; [done|].
    rewrite of_nat_0. split; apply Qcle_refl. }
  rewrite sum_list_fmap_zero, of_nat_0 in Hs2. f_equal.
  by apply Qcle_antisym.
Qed.

Lemma ratio_at_zero c i v :
  credit_of c i v = 0 → ratio_at c i v = NaN ∨ ratio_at c i v = Fin 0%Qc.
Proof.
  intros Hz. unfold ratio_at. case_decide; [|by left]. right.
  rewrite Hz, of_nat_0. unfold Qcdiv. by rewrite Qcmult_0_l.
Qed.

Lemma nansum_ratios_zero c i :
  (∀ v, credit_of c i v = 0) →
  nansum (ratio_at c i <$> seq 0 (vcount (graph c))) = Fin 0%Qc.
Proof.
  intros Hz. apply nansum_zero, Forall_fmap, Forall_forall.
  intros v _. by apply ratio_at_zero.
Qed.

(** X11: on a graph without vertices [maximum_out_degree_fraction] takes the
    maximum of an empty list: it raises [ValueError] as soon as the cover has
    a cluster. *)
Theorem maximum_out_degree_fraction_no_vertex (c : Cover) :
  wf_graph (graph c) → vcount (graph c) = 0 → 0 < len c →
  maximum_out_degree_fraction c = Raise ValueError.
Proof.
  intros Hwf Hn Hlen. rewrite maximum_out_degree_fraction_closed by done.
  rewrite Hn. apply for_each_raise.
  - intros i _. by right.
  - exists 0. split; [apply elem_of_seq; lia|done].
Qed.

Lemma maximum_out_degree_fraction_no_vertex_witness :
  maximum_out_degree_fraction (mkCover (mkGraph 0 [] false) [[]]) = Raise ValueError.
Proof.
  apply maximum_out_degree_fraction_no_vertex; [solve_wf|reflexivity|vm_compute; lia].
Defined.

(** X12: [average_out_degree_fraction] never raises: it returns one value
    per cluster, and the value of a cluster that holds no vertex of the graph
    is not-a-number (0/0 on a numpy float). *)
Theorem average_out_degree_fraction_total (c : Cover) :
  wf_graph (graph c) →
  ∃ avg, average_out_degree_fraction c = Ok avg ∧ length avg = len c
    ∧ ∀ i, i < len c → sub_vcount c i = 0 → avg !! i = Some NaN.
Proof.
  intros Hwf. eexists. split; [by apply average_out_degree_fraction_closed|].
  split; [by rewrite length_fmap, length_seq|].
  intros i Hi Hsub. rewrite list_lookup_fmap, lookup_seq_lt by done. simpl.
  rewrite nansum_ratios_zero by (intros v; by apply credit_of_zero).
  rewrite Hsub, of_nat_0. f_equal.
Qed.

Lemma average_out_degree_fraction_total_witness :
  ∃ avg, average_out_degree_fraction Examples.with_empty_cluster = Ok avg
    ∧ length avg = len Examples.with_empty_cluster
    ∧ ∀ i, i < len Examples.with_empty_cluster →
        sub_vcount Examples.with_empty_cluster i = 0 → avg !! i = Some NaN.
Proof.
  apply (average_out_degree_fraction_total Examples.with_empty_cluster). solve_wf.
Defined.

Lemma credit_of_no_boundary c i v : ext c i = 0 → credit_of c i v = 0.
Proof.
  unfold ext, credit_of, credit. intros Hext.
  destruct (boundary_edges c i); [done|simpl in Hext; lia].
Qed.

Lemma flake_count_no_credit c i :
  (∀ v, credit_of c i v = 0) → flake_count c i = 0.
Proof.
  intros Hz. unfold flake_count. rewrite filter_none; [done|].
  apply Forall_forall. intros v _. unfold flake_test. simpl.
  rewrite Hz, of_nat_0. rewrite bool_decide_eq_true. apply Qcle_not_lt.
  apply Qcdiv_nonneg; [apply of_nat_nonneg|done].
Qed.

(** X13: a cluster that holds a vertex of the graph and has no boundary edge
    has the average out-degree fraction 0, and the flake out-degree fraction
    0 whenever [flake_out_degree_fraction] returns. *)
Theorem out_degree_fraction_without_boundary (c : Cover) (i : nat) :
  wf_graph (graph c) → i < len c → ext c i = 0 → 0 < sub_vcount c i →
  (∃ avg, average_out_degree_fraction c = Ok avg ∧ avg !! i = Some (Fin 0%Qc))
  ∧ (∀ fl, flake_out_degree_fraction c = Ok fl → fl !! i = Some (Fin 0%Qc)).
Proof.
  intros Hwf Hi Hext Hsub.
  assert (of_nat (sub_vcount c i) ≠ 0%Qc) as Hnz by (rewrite of_nat_eq_0; lia).
  split.
  - eexists. split; [by apply average_out_degree_fraction_closed|].
    rewrite list_lookup_fmap, lookup_seq_lt by done. simpl.
    rewrite nansum_ratios_zero by (intros v; by apply credit_of_no_boundary).
    unfold np_truediv. rewrite decide_False by done.
    unfold Qcdiv. by rewrite Qcmult_0_l.
  - intros fl Hfl. rewrite flake_out_degree_fraction_closed in Hfl by done.
    pose proof (for_each_length _ _ _ Hfl) as Hlen. rewrite length_seq in Hlen.
    destruct (lookup_lt_is_Some_2 fl i) as [y Hy]; [lia|].
    pose proof (for_each_lookup _ _ _ i i y Hfl (lookup_seq_lt 0 _ _ Hi) Hy) as Hat.
    simpl in Hat.
    rewrite flake_count_no_credit in Hat
      by (intros v; by apply credit_of_no_boundary).
    rewrite truediv_nonzero in Hat by done. injection Hat as <-.
    rewrite Hy, of_nat_0. unfold Qcdiv. by rewrite Qcmult_0_l.
Qed.

Lemma out_degree_fraction_without_boundary_witness :
  ∃ avg, average_out_degree_fraction Examples.two_pairs = Ok avg
    ∧ avg !! 0 = Some (Fin 0%Qc).
Proof.
  apply (out_degree_fraction_without_boundary Examples.two_pairs 0);
    [solve_wf|vm_compute; lia|by vm_compute|vm_compute; lia].
Defined.

(** X14: [flake_out_degree_fraction] returns exactly when every cluster
    holds a vertex of the graph; otherwise it raises the division error. *)
Theorem flake_out_degree_fraction_returns_iff (c : Cover) :
  wf_graph (graph c) →
  ((∃ fl, flake_out_degree_fraction c = Ok fl) ↔
   (∀ i, i < len c → 0 < sub_vcount c i))
  ∧ ((∃ i, i < len c ∧ sub_vcount c i = 0) →
     flake_out_degree_fraction c = Raise ZeroDivisionError).
Proof.
  intros Hwf. rewrite flake_out_degree_fraction_closed by done.
  assert ((∃ i, i < len c ∧ sub_vcount c i = 0) →
    for_each (λ i, truediv (of_nat (flake_count c i)) (of_nat (sub_vcount c i)))
      (seq 0 (len c)) = Raise ZeroDivisionError) as Hraise.
  { intros (i & Hi & Hsub). apply for_each_raise.
    - intros j _. apply truediv_cases.
    - exists i. split; [apply elem_of_seq; lia|].
      simpl. rewrite Hsub, of_nat_0. apply truediv_zero. }
  split; [|done]. split.
  - intros [fl Hfl] i Hi.
    destruct (decide (sub_vcount c i = 0)) as [Hz|]; [|lia].
    rewrite Hraise in Hfl by eauto. done.
  - intros Hall.
    destruct (for_each_total
      (λ i, truediv (of_nat (flake_count c i)) (of_nat (sub_vcount c i)))
      (λ _ _, True) (seq 0 (len c))) as (fl & Hfl & _); [|by exists fl].
    intros i [_ Hi]%elem_of_seq. eexists. split; [|done].
    apply truediv_nonzero. rewrite of_nat_eq_0. specialize (Hall i Hi). lia.
Qed.

Lemma flake_out_degree_fraction_returns_iff_witness :
  flake_out_degree_fraction Examples.with_empty_cluster = Raise ZeroDivisionError.
Proof.
  apply (proj2 (flake_out_degree_fraction_returns_iff Examples.with_empty_cluster
                  ltac:(solve_wf))).
  exists 0. split; [vm_compute; lia|by vm_compute].
Defined.

Lemma maximum_out_degree_fraction_first_connected_witness :
  ∃ rv, maximum_out_degree_fraction Examples.triangle = Ok rv
    ∧ length rv = len Examples.triangle.
Proof.
  destruct (maximum_out_degree_fraction_first_connected Examples.triangle
              ltac:(solve_wf) ltac:(vm_compute; lia)) as (rv & Hrv & Hlen & _).
  exists rv. split; [exact Hrv|exact Hlen].
Defined.

Lemma maximum_out_degree_fraction_nan_witness :
  maximum_out_degree_fraction Examples.isolated_first
  = Ok ((λ _, NaN) <$> seq 0 (len Examples.isolated_first)).
Proof.
  apply (maximum_out_degree_fraction_nan Examples.isolated_first);
    [solve_wf|vm_compute; lia|by vm_compute].
Defined.

(** ** The aggregator: when it returns and what it leaves behind *)

Section truediv_loops.
Context (num den : nat → Qc) (n : nat).

Lemma for_each_truediv_Ok :
  (∀ i, i < n → den i ≠ 0%Qc) →
  ∃ ys, for_each (λ i, truediv (num i) (den i)) (seq 0 n) = Ok ys ∧ length ys = n.
Proof.
  intros Hnz. eexists. split.
  - apply for_each_ok. intros i [_ Hi]%elem_of_seq. apply truediv_nonzero. auto.
  - by rewrite length_fmap, length_seq.
Qed.

Lemma for_each_truediv_inv ys :
  for_each (λ i, truediv (num i) (den i)) (seq 0 n) = Ok ys →
  ∀ i, i < n → den i ≠ 0%Qc.
Proof.
  intros Hys i Hi.
  destruct (for_each_Ok_elem _ _ _ i Hys) as [y Hy]; [apply elem_of_seq; lia|].
  by apply truediv_Ok_inv in Hy as [? _].
Qed.

Lemma for_each_truediv_cases :
  (∃ ys, for_each (λ i, truediv (num i) (den i)) (seq 0 n) = Ok ys)
  ∨ for_each (λ i, truediv (num i) (den i)) (seq 0 n) = Raise ZeroDivisionError.
Proof. apply for_each_cases. intros i _. apply truediv_cases. Qed.

End truediv_loops.

Lemma fomd_at_closed (median : pyfloat) c i :
  i < len c →
  fomd_at median c i
  = truediv
      (of_nat (length (filter (λ v, float_gt (Fin (of_nat v)) median = true)
                         (degree (induced_subgraph (graph c) (cluster c i))))))
      (of_nat (sub_vcount c i)).
Proof. intros Hi. unfold fomd_at. by rewrite subgraph_closed, bind_Ok. Qed.

Lemma fomd_loop_closed (median : pyfloat) c :
  for_each (fomd_at median c) (seq 0 (len c))
  = for_each (λ i, truediv
      (of_nat (length (filter (λ v, float_gt (Fin (of_nat v)) median = true)
                         (degree (induced_subgraph (graph c) (cluster c i))))))
      (of_nat (sub_vcount c i))) (seq 0 (len c)).
Proof.
  apply for_each_ext. intros i [_ Hi]%elem_of_seq. by apply fomd_at_closed.
Qed.

Lemma sub_vcount_size c i : 0 < sub_vcount c i → 0 < size_of c i ∧ 0 < vcount (graph c).
Proof.
  unfold sub_vcount, subgraph_vertices, size_of. intros Hpos.
  destruct (filter _ _) as [|v l] eqn:Hf; [simpl in Hpos; lia|].
  assert (v ∈ filter (λ v, v ∈ cluster c i) (seq 0 (vcount (graph c)))) as Hv
    by (rewrite Hf; by left).
  apply list_elem_of_filter in Hv as [Hv Hn]. apply elem_of_seq in Hn.
  split; [|lia]. destruct (cluster c i); [by apply elem_of_nil in Hv|simpl; lia].
Qed.

Lemma edge_vcount_pos g : wf_graph g → 0 < ecount g → 0 < vcount g.
Proof.
  unfold wf_graph, ecount. intros Hwf He.
  destruct (get_edgelist g) as [|st l]; [simpl in He; lia|].
  apply Forall_cons in Hwf as [[? _] _]. lia.
Qed.

Lemma ext_ecount_pos c i : wf_graph (graph c) → i < len c → 0 < ext c i → 0 < ecount (graph c).
Proof.
  intros Hwf Hi. unfold ext. rewrite boundary_edges_closed by done.
  unfold listed_edges, ecount.
  destruct (get_edgelist (graph c)) as [|st l] eqn:Hel; [|simpl; lia].
  unfold es. rewrite Hel. simpl. lia.
Qed.

Lemma py_max_nonempty (x : pyfloat) (l : list pyfloat) : ∃ y, py_max (x :: l) = Ok y.
Proof. by eexists. Qed.

Section calculators_outcome.
Context (c : Cover) (Hwf : wf_graph (graph c)).

Lemma expansion_outcome :
  ((∀ i, i < len c → size_of c i ≠ 0) →
   ∃ ys, expansion c = Ok ys ∧ length ys = len c)
  ∧ ((∃ ys, expansion c = Ok ys) ∨ expansion c = Raise ZeroDivisionError).
Proof.
  rewrite expansion_closed by done. split.
  - intros Hnz.
    apply (for_each_truediv_Ok (λ i, 1 * of_nat (ext c i))%Qc
             (λ i, of_nat (size_of c i))).
    intros i Hi. rewrite of_nat_eq_0. auto.
  - apply (for_each_truediv_cases (λ i, 1 * of_nat (ext c i))%Qc
             (λ i, of_nat (size_of c i))).
Qed.

Lemma cut_ratio_outcome :
  ((∀ i, i < len c → size_of c i ≠ 0 ∧ size_of c i ≠ vcount (graph c)) →
   ∃ ys, cut_ratio c = Ok ys ∧ length ys = len c)
  ∧ (∀ ys, cut_ratio c = Ok ys →
       ∀ i, i < len c → size_of c i ≠ vcount (graph c))
  ∧ ((∃ ys, cut_ratio c = Ok ys) ∨ cut_ratio c = Raise ZeroDivisionError).
Proof.
  rewrite cut_ratio_closed by done.
  set (den := λ i, of_Z (Z.of_nat (size_of c i)
                         * (Z.of_nat (vcount (graph c)) - Z.of_nat (size_of c i)))).
  split; [|split].
  - intros Hnz. apply (for_each_truediv_Ok (λ i, 1 * of_nat (ext c i))%Qc den).
    intros i Hi. unfold den. rewrite of_Z_eq_0. destruct (Hnz i Hi). nia.
  - intros ys Hys i Hi Heq.
    apply (for_each_truediv_inv (λ i, 1 * of_nat (ext c i))%Qc den _ ys Hys i Hi).
    unfold den. apply of_Z_eq_0. rewrite Heq. lia.
  - apply (for_each_truediv_cases (λ i, 1 * of_nat (ext c i))%Qc den).
Qed.

Lemma conductance_outcome :
  ((∀ i, i < len c → 0 < ext c i) →
   ∃ ys, conductance c = Ok ys ∧ length ys = len c)
  ∧ (∀ ys, conductance c = Ok ys → 0 < len c → 0 < vcount (graph c))
  ∧ ((∃ ys, conductance c = Ok ys) ∨ conductance c = Raise ZeroDivisionError).
Proof.
  rewrite conductance_closed by done. split; [|split].
  - intros Hnz.
    apply (for_each_truediv_Ok (λ i, of_nat (ext c i))
             (λ i, of_nat (2 * int c i + ext c i))).
    intros i Hi. rewrite of_nat_eq_0. specialize (Hnz i Hi). lia.
  - intros ys Hys Hlen.
    pose proof (for_each_truediv_inv (λ i, of_nat (ext c i))
                  (λ i, of_nat (2 * int c i + ext c i)) _ ys Hys 0 Hlen) as Hnz.
    simpl in Hnz. rewrite of_nat_eq_0 in Hnz.
    apply edge_vcount_pos; [done|].
    destruct (decide (0 < ext c 0)) as [Hext|Hext].
    + by eapply ext_ecount_pos.
    + pose proof (int_le_ecount c 0). lia.
  - apply (for_each_truediv_cases (λ i, of_nat (ext c i))
             (λ i, of_nat (2 * int c i + ext c i))).
Qed.

Lemma separability_outcome :
  ((∀ i, i < len c → 0 < ext c i) →
   ∃ ys, separability c = Ok ys ∧ length ys = len c)
  ∧ (∀ ys, separability c = Ok ys → ∀ i, i < len c → 0 < ext c i)
  ∧ ((∃ ys, separability c = Ok ys) ∨ separability c = Raise ZeroDivisionError).
Proof.
  rewrite separability_closed by done. split; [|split].
  - intros Hnz.
    apply (for_each_truediv_Ok (λ i, 1 * of_nat (int c i))%Qc
             (λ i, of_nat (ext c i))).
    intros i Hi. rewrite of_nat_eq_0. specialize (Hnz i Hi). lia.
  - intros ys Hys i Hi.
    pose proof (for_each_truediv_inv (λ i, 1 * of_nat (int c i))%Qc
                  (λ i, of_nat (ext c i)) _ ys Hys i Hi) as Hnz.
    simpl in Hnz. rewrite of_nat_eq_0 in Hnz. lia.
  - apply (for_each_truediv_cases (λ i, 1 * of_nat (int c i))%Qc
             (λ i, of_nat (ext c i))).
Qed.

Lemma normalized_cut_outcome :
  ((∀ i, i < len c → 0 < ext c i) →
   ∃ ys, normalized_cut c = Ok ys ∧ length ys = len c)
  ∧ ((∃ ys, normalized_cut c = Ok ys) ∨ normalized_cut c = Raise ZeroDivisionError).
Proof.
  rewrite normalized_cut_closed by done.
  set (den := λ i, of_Z (2 * (Z.of_nat (ecount (graph c)) - Z.of_nat (int c i))
                         + Z.of_nat (ext c i))).
  split.
  - intros Hnz.
    destruct (proj1 conductance_outcome Hnz) as (cv & -> & Hlc). rewrite bind_Ok.
    destruct (for_each_truediv_Ok (λ i, of_nat (ext c i)) den (len c))
      as (xs & Hxs & Hlx).
    { intros i Hi. unfold den. rewrite of_Z_eq_0.
      specialize (Hnz i Hi). pose proof (int_le_ecount c i). lia. }
    change (for_each (second_term c) (seq 0 (len c)) = Ok xs) in Hxs.
    rewrite Hxs, bind_Ok. eexists. split; [done|].
    rewrite length_zip_with. lia.
  - destruct (proj2 (proj2 conductance_outcome)) as [[cv ->]| ->]; [|by right].
    rewrite bind_Ok.
    assert ((∃ xs, for_each (second_term c) (seq 0 (len c)) = Ok xs)
            ∨ for_each (second_term c) (seq 0 (len c)) = Raise ZeroDivisionError)
      as [[xs Hxs]|Hxs]
      by apply (for_each_truediv_cases (λ i, of_nat (ext c i)) den (len c));
      rewrite Hxs; [left; by eexists|by right].
Qed.

Lemma maximum_out_degree_fraction_outcome :
  (0 < vcount (graph c) ∨ len c = 0) →
  ∃ ys, maximum_out_degree_fraction c = Ok ys ∧ length ys = len c.
Proof.
  intros Hn. rewrite maximum_out_degree_fraction_closed by done.
  destruct (for_each_total
    (λ i, py_max (ratio_at c i <$> seq 0 (vcount (graph c)))) (λ _ _, True)
    (seq 0 (len c))) as (ys & Hys & Hall).
  - intros i [_ Hi]%elem_of_seq. destruct Hn as [Hn|Hn]; [|lia].
    destruct (vcount (graph c)) as [|n]; [lia|].
    rewrite <-cons_seq, fmap_cons. eexists. split; [reflexivity|done].
  - exists ys. split; [done|].
    apply Forall2_length in Hall. by rewrite length_seq in Hall.
Qed.

Lemma flake_out_degree_fraction_outcome :
  ((∀ i, i < len c → 0 < sub_vcount c i) →
   ∃ ys, flake_out_degree_fraction c = Ok ys ∧ length ys = len c)
  ∧ ((∃ ys, flake_out_degree_fraction c = Ok ys)
     ∨ flake_out_degree_fraction c = Raise ZeroDivisionError).
Proof.
  rewrite flake_out_degree_fraction_closed by done. split.
  - intros Hnz.
    apply (for_each_truediv_Ok (λ i, of_nat (flake_count c i))
             (λ i, of_nat (sub_vcount c i))).
    intros i Hi. rewrite of_nat_eq_0. specialize (Hnz i Hi). lia.
  - apply (for_each_truediv_cases (λ i, of_nat (flake_count c i))
             (λ i, of_nat (sub_vcount c i))).
Qed.

Lemma fomd_loop_outcome (median : pyfloat) :
  ((∀ i, i < len c → 0 < sub_vcount c i) →
   ∃ ys, for_each (fomd_at median c) (seq 0 (len c)) = Ok ys ∧ length ys = len c)
  ∧ (∀ ys, for_each (fomd_at median c) (seq 0 (len c)) = Ok ys →
       ∀ i, i < len c → 0 < sub_vcount c i)
  ∧ ((∃ ys, for_each (fomd_at median c) (seq 0 (len c)) = Ok ys)
     ∨ for_each (fomd_at median c) (seq 0 (len c)) = Raise ZeroDivisionError).
Proof.
  rewrite fomd_loop_closed. split; [|split].
  - intros Hnz. apply for_each_truediv_Ok.
    intros i Hi. rewrite of_nat_eq_0. specialize (Hnz i Hi). lia.
  - intros ys Hys i Hi.
    pose proof (for_each_truediv_inv _ _ _ ys Hys i Hi) as Hnz.
    simpl in Hnz. rewrite of_nat_eq_0 in Hnz. lia.
  - apply for_each_truediv_cases.
Qed.

End calculators_outcome.

Section aggregator_outcome.
Context {GraphMetrics : Type}.
Context (graph_metrics_of : Graph → GraphMetrics).
Context (median_of : GraphMetrics → pyfloat).

Abbreviation CoverObj := (@CoverObj GraphMetrics).
Abbreviation Report := (@Report GraphMetrics).

Lemma calculators_returns c gm :
  wf_graph (graph c) → reportable c →
  ∃ r : Report, calculators median_of gm c = Ok r
    ∧ length (Fraction_over_a_Median_Degree r) = len c
    ∧ length (Expansion r) = len c
    ∧ length (Cut_Ratio r) = len c
    ∧ length (Conductance r) = len c
    ∧ length (Normalized_Cut r) = len c
    ∧ length (Maximum_Out_Degree_Fraction r) = len c
    ∧ length (Average_Out_Degree_Fraction r) = len c
    ∧ length (Flake_Out_Degree_Fraction r) = len c
    ∧ length (Separability r) = len c
    ∧ Subgraphs r = [].
Proof.
  intros Hwf Hgood. unfold calculators.
  assert (∀ i, i < len c → 0 < ext c i) as Hext by (intros i Hi; by apply Hgood).
  assert (∀ i, i < len c → 0 < sub_vcount c i) as Hsub by (intros i Hi; by apply Hgood).
  assert (∀ i, i < len c → size_of c i ≠ 0 ∧ size_of c i ≠ vcount (graph c)) as Hsz.
  { intros i Hi. destruct (Hgood i Hi) as (_ & Hs & Hn).
    apply sub_vcount_size in Hs as [Hs _]. split; [lia|done]. }
  assert (0 < vcount (graph c) ∨ len c = 0) as Hn.
  { destruct (len c) as [|k] eqn:Hk; [by right|]. left.
    apply (sub_vcount_size c 0), Hsub. lia. }
  destruct (proj1 (fomd_loop_outcome c (median_of gm)) Hsub) as (m1 & -> & H1).
  destruct (proj1 (expansion_outcome c Hwf)) as (m2 & -> & H2);
    [intros i Hi; by apply Hsz|].
  destruct (proj1 (cut_ratio_outcome c Hwf) Hsz) as (m3 & -> & H3).
  destruct (proj1 (conductance_outcome c Hwf) Hext) as (m4 & -> & H4).
  destruct (proj1 (normalized_cut_outcome c Hwf) Hext) as (m5 & -> & H5).
  destruct (maximum_out_degree_fraction_outcome c Hwf Hn) as (m6 & -> & H6).
  rewrite (average_out_degree_fraction_closed c Hwf).
  destruct (proj1 (flake_out_degree_fraction_outcome c Hwf) Hsub) as (m8 & -> & H8).
  destruct (proj1 (separability_outcome c Hwf) Hext) as (m9 & -> & H9).
  eexists. split; [done|]. simpl.
  rewrite length_fmap, length_seq. done.
Qed.

Lemma calculators_inv c gm (r : Report) :
  wf_graph (graph c) → calculators median_of gm c = Ok r → reportable c.
Proof.
  intros Hwf. unfold calculators.
  destruct (for_each _ _) as [m1|] eqn:E1; [|done]. rewrite bind_Ok.
  destruct (expansion c) as [m2|]; [|done]. rewrite bind_Ok.
  destruct (cut_ratio c) as [m3|] eqn:E3; [|done]. rewrite bind_Ok.
  destruct (conductance c) as [m4|]; [|done]. rewrite bind_Ok.
  destruct (normalized_cut c) as [m5|]; [|done]. rewrite bind_Ok.
  destruct (maximum_out_degree_fraction c) as [m6|]; [|done]. rewrite bind_Ok.
  destruct (average_out_degree_fraction c) as [m7|]; [|done]. rewrite bind_Ok.
  destruct (flake_out_degree_fraction c) as [m8|]; [|done]. rewrite bind_Ok.
  destruct (separability c) as [m9|] eqn:E9; [|done]. intros _.
  intros i Hi. split; [|split].
  - by apply (proj1 (proj2 (separability_outcome c Hwf)) m9 E9).
  - by apply (proj1 (proj2 (fomd_loop_outcome c (median_of gm))) m1 E1).
  - by apply (proj1 (proj2 (cut_ratio_outcome c Hwf)) m3 E3).
Qed.

Lemma calculators_cases c gm :
  wf_graph (graph c) →
  (∃ r : Report, calculators median_of gm c = Ok r)
  ∨ calculators median_of gm c = Raise ZeroDivisionError.
Proof.
  intros Hwf. unfold calculators.
  destruct (proj2 (proj2 (fomd_loop_outcome c (median_of gm)))) as [[m1 ->]| ->];
    [|by right]. rewrite bind_Ok.
  destruct (proj2 (expansion_outcome c Hwf)) as [[m2 ->]| ->]; [|by right].
  rewrite bind_Ok.
  destruct (proj2 (proj2 (cut_ratio_outcome c Hwf))) as [[m3 ->]| ->]; [|by right].
  rewrite bind_Ok.
  destruct (proj2 (proj2 (conductance_outcome c Hwf))) as [[m4 E4]|E4];
    rewrite E4; [|by right].
  rewrite bind_Ok.
  destruct (proj2 (normalized_cut_outcome c Hwf)) as [[m5 ->]| ->]; [|by right].
  rewrite bind_Ok.
  destruct (maximum_out_degree_fraction_outcome c Hwf) as (m6 & -> & _).
  { destruct (len c) as [|k] eqn:Hk; [by right|]. left.
    apply (proj1 (proj2 (conductance_outcome c Hwf)) m4 E4). lia. }
  rewrite bind_Ok, (average_out_degree_fraction_closed c Hwf), bind_Ok.
  destruct (proj2 (flake_out_degree_fraction_outcome c Hwf)) as [[m8 ->]| ->];
    [|by right]. rewrite bind_Ok.
  destruct (proj2 (proj2 (separability_outcome c Hwf))) as [[m9 ->]| ->];
    [|by right]. rewrite bind_Ok.
  left. by eexists.
Qed.

Lemma add_subgraphs_run ids (o : CoverObj) (r : Report) :
  metrics o = Some r → Forall (λ i, i < len (cover_of o)) ids →
  add_subgraphs graph_metrics_of ids o
  = (mkCoverObj (cover_of o) (graph_metrics o)
       (Some (mkReport (Fraction_over_a_Median_Degree r) (Expansion r)
                (Cut_Ratio r) (Conductance r) (Normalized_Cut r)
                (Maximum_Out_Degree_Fraction r) (Average_Out_Degree_Fraction r)
                (Flake_Out_Degree_Fraction r) (Separability r)
                (Subgraphs r
                 ++ ((λ i, graph_metrics_of
                             (induced_subgraph (graph (cover_of o))
                                (cluster (cover_of o) i))) <$> ids)))),
     Ok tt).
Proof.
  revert o r. induction ids as [|i ids IH]; intros o r Hr Hids.
  - simpl. unfold ret. rewrite app_nil_r. destruct o, r; simpl in *. by subst.
  - apply Forall_cons in Hids as [Hi Hids]. simpl. rewrite Hr.
    unfold add_subgraph. rewrite subgraph_closed, bind_Ok by done.
    unfold bindM, set_metrics.
    erewrite IH; [|simpl; reflexivity|simpl; done]. simpl.
    by rewrite <-app_assoc.
Qed.

(** What a run of [compute_metrics] does, given the report of the graph that
    it finds or computes. *)
Lemma compute_metrics_run (o : CoverObj) :
  let c := cover_of o in
  let gm := default (graph_metrics_of (graph c)) (graph_metrics o) in
  compute_metrics graph_metrics_of median_of o
  = match calculators median_of gm c with
    | Ok r =>
        (mkCoverObj c (Some gm)
           (Some (mkReport (Fraction_over_a_Median_Degree r) (Expansion r)
                    (Cut_Ratio r) (Conductance r) (Normalized_Cut r)
                    (Maximum_Out_Degree_Fraction r) (Average_Out_Degree_Fraction r)
                    (Flake_Out_Degree_Fraction r) (Separability r)
                    (Subgraphs r
                     ++ ((λ i, graph_metrics_of
                                 (induced_subgraph (graph c) (cluster c i)))
                           <$> seq 0 (len c))))),
         Ok tt)
    | Raise e => (mkCoverObj c (Some gm) (metrics o), Raise e)
    end.
Proof.
  intros c gm.
  assert (compute_metrics graph_metrics_of median_of o
          = compute_metrics graph_metrics_of median_of
              (mkCoverObj c (Some gm) (metrics o))) as ->.
  { destruct (graph_metrics o) as [g|] eqn:Hg.
    - subst gm c. destruct o; simpl in *. by subst.
    - by rewrite (compute_metrics_first _ _ o Hg). }
  rewrite (compute_metrics_cached _ _ (mkCoverObj c (Some gm) (metrics o)) gm eq_refl).
  simpl. destruct (calculators median_of gm c) as [r|e]; [|done].
  rewrite (add_subgraphs_run _ (mkCoverObj c (Some gm) (Some r)) r eq_refl); [done|].
  apply Forall_forall. by intros i [_ ?]%elem_of_seq.
Qed.

End aggregator_outcome.

Lemma fomd_at_bounded (median : pyfloat) c i y :
  i < len c → fomd_at median c i = Ok y → ∃ q, y = Fin q ∧ (0 ≤ q ≤ 1)%Qc.
Proof.
  intros Hi. rewrite fomd_at_closed by done.
  intros [Hnz ->]%truediv_Ok_inv. rewrite of_nat_eq_0 in Hnz.
  eexists. split; [done|]. split.
  - apply Qcdiv_nonneg; [apply of_nat_nonneg|apply of_nat_pos; lia].
  - apply Qcdiv_le_1; [|apply of_nat_pos; lia]. apply of_nat_le.
    etrans; [apply length_filter|].
    unfold degree. by rewrite length_fmap, length_seq.
Qed.

(** X15: [fomd] leaves the cover and its report as they are and leaves a
    report attached to the graph.  It returns, with one value per cluster and
    every value between 0 and 1, when every cluster holds a vertex of the
    graph, and raises the division error when some cluster holds none. *)
Theorem fomd_outcome {GraphMetrics : Type}
    (graph_metrics_of : Graph → GraphMetrics)
    (median_of : GraphMetrics → pyfloat)
    (o : @CoverObj GraphMetrics) :
  cover_of (fomd graph_metrics_of median_of o).1 = cover_of o
  ∧ metrics (fomd graph_metrics_of median_of o).1 = metrics o
  ∧ is_Some (graph_metrics (fomd graph_metrics_of median_of o).1)
  ∧ ((∀ i, i < len (cover_of o) → 0 < sub_vcount (cover_of o) i) →
     ∃ rv, (fomd graph_metrics_of median_of o).2 = Ok rv
       ∧ length rv = len (cover_of o)
       ∧ ∀ i x, rv !! i = Some x → ∃ q, x = Fin q ∧ (0 ≤ q ≤ 1)%Qc)
  ∧ ((∃ i, i < len (cover_of o) ∧ sub_vcount (cover_of o) i = 0) →
     (fomd graph_metrics_of median_of o).2 = Raise ZeroDivisionError).
Proof.
  unfold fomd, bindM, graph_compute_metrics, pure.
  set (c := cover_of o).
  assert (∀ median,
    ((∀ i, i < len c → 0 < sub_vcount c i) →
     ∃ rv, for_each (fomd_at median c) (seq 0 (len c)) = Ok rv
       ∧ length rv = len c
       ∧ ∀ i x, rv !! i = Some x → ∃ q, x = Fin q ∧ (0 ≤ q ≤ 1)%Qc)
    ∧ ((∃ i, i < len c ∧ sub_vcount c i = 0) →
       for_each (fomd_at median c) (seq 0 (len c)) = Raise ZeroDivisionError))
    as Hloop.
  { intros median. split.
    - intros Hsub.
      destruct (proj1 (fomd_loop_outcome c median) Hsub) as (rv & Hrv & Hlen).
      exists rv. split; [done|]. split; [done|]. intros i x Hx.
      assert (i < len c) as Hi by (rewrite <-Hlen; by eapply lookup_lt_Some).
      apply (fomd_at_bounded median c i x Hi).
      by apply (for_each_lookup _ _ _ i i x Hrv (lookup_seq_lt 0 _ _ Hi)).
    - intros (i & Hi & Hz).
      destruct (proj2 (proj2 (fomd_loop_outcome c median))) as [[rv Hrv]|]; [|done].
      pose proof (proj1 (proj2 (fomd_loop_outcome c median)) rv Hrv i Hi). lia. }
  destruct (graph_metrics o) as [gm|] eqn:Hgm; simpl.
  - rewrite Hgm. split; [done|]. split; [done|]. split; [by eexists|]. apply Hloop.
  - split; [done|]. split; [done|]. split; [by eexists|]. apply Hloop.
Qed.

Lemma fomd_outcome_witness :
  ∃ rv, (fomd (λ g, ecount g) (λ _, Fin 1%Qc)
           (mkCoverObj Examples.triangle None None)).2 = Ok rv
    ∧ length rv = len Examples.triangle.
Proof.
  destruct (fomd_outcome (λ g, ecount g) (λ _, Fin 1%Qc)
              (mkCoverObj Examples.triangle None None))
    as (_ & _ & _ & H & _).
  destruct H as (rv & Hrv & Hlen & _).
  - intros i Hi. simpl in *.
    assert (i = 0 ∨ i = 1) as [-> | ->] by (vm_compute in Hi; lia); vm_compute; lia.
  - exists rv. split; [exact Hrv|exact Hlen].
Defined.

(** X16: on a graph whose edges join its own vertices, [compute_metrics]
    returns normally exactly when every cluster has a boundary edge, holds a
    vertex of the graph and does not have as many entries as the graph has
    vertices; in every other case it raises the division error. *)
Theorem compute_metrics_outcome {GraphMetrics : Type}
    (graph_metrics_of : Graph → GraphMetrics)
    (median_of : GraphMetrics → pyfloat)
    (o : @CoverObj GraphMetrics) :
  wf_graph (graph (cover_of o)) →
  ((compute_metrics graph_metrics_of median_of o).2 = Ok tt
   ↔ reportable (cover_of o))
  ∧ ((compute_metrics graph_metrics_of median_of o).2 = Ok tt
     ∨ (compute_metrics graph_metrics_of median_of o).2 = Raise ZeroDivisionError).
Proof.
  intros Hwf. rewrite compute_metrics_run.
  set (gm := default _ _).
  destruct (calculators median_of gm (cover_of o)) as [r|e] eqn:Hcalc; simpl.
  - split; [|by left]. split; [|done]. intros _. by eapply calculators_inv.
  - destruct (calculators_cases median_of (cover_of o) gm Hwf) as [[r Hr]|Hr];
      rewrite Hr in Hcalc; [done|]. injection Hcalc as <-.
    split; [|by right]. split; [done|]. intros Hgood.
    destruct (calculators_returns median_of (cover_of o) gm Hwf Hgood) as (r & Hr' & _).
    by rewrite Hr' in Hr.
Qed.

Lemma compute_metrics_outcome_witness :
  (compute_metrics (λ g, ecount g) (λ _, Fin 1%Qc)
     (mkCoverObj Examples.joined_pair None None)).2 = Ok tt
  ↔ reportable Examples.joined_pair.
Proof.
  apply (compute_metrics_outcome (λ g, ecount g) (λ _, Fin 1%Qc)
           (mkCoverObj Examples.joined_pair None None)).
  solve_wf.
Defined.

(** X17: when [compute_metrics] returns, the cover carries a report with one
    value per cluster for each of the nine metrics and, under 'Subgraphs',
    the graph report of every cluster's subgraph in cluster order; the graph
    carries a report and the cover itself is unchanged. *)
Theorem compute_metrics_report {GraphMetrics : Type}
    (graph_metrics_of : Graph → GraphMetrics)
    (median_of : GraphMetrics → pyfloat)
    (o : @CoverObj GraphMetrics) :
  wf_graph (graph (cover_of o)) →
  (compute_metrics graph_metrics_of median_of o).2 = Ok tt →
  cover_of (compute_metrics graph_metrics_of median_of o).1 = cover_of o
  ∧ is_Some (graph_metrics (compute_metrics graph_metrics_of median_of o).1)
  ∧ ∃ r, metrics (compute_metrics graph_metrics_of median_of o).1 = Some r
      ∧ length (Fraction_over_a_Median_Degree r) = len (cover_of o)
      ∧ length (Expansion r) = len (cover_of o)
      ∧ length (Cut_Ratio r) = len (cover_of o)
      ∧ length (Conductance r) = len (cover_of o)
      ∧ length (Normalized_Cut r) = len (cover_of o)
      ∧ length (Maximum_Out_Degree_Fraction r) = len (cover_of o)
      ∧ length (Average_Out_Degree_Fraction r) = len (cover_of o)
      ∧ length (Flake_Out_Degree_Fraction r) = len (cover_of o)
      ∧ length (Separability r) = len (cover_of o)
      ∧ Subgraphs r
        = (λ i, graph_metrics_of
                  (induced_subgraph (graph (cover_of o)) (cluster (cover_of o) i)))
          <$> seq 0 (len (cover_of o)).
Proof.
  intros Hwf. rewrite compute_metrics_run.
  set (gm := default _ _).
  destruct (calculators median_of gm (cover_of o)) as [r|e] eqn:Hcalc; simpl; [|done].
  intros _. split; [done|]. split; [by eexists|].
  pose proof (calculators_inv median_of _ _ _ Hwf Hcalc) as Hgood.
  destruct (calculators_returns median_of (cover_of o) gm Hwf Hgood)
    as (r' & Hr' & H1 & H2 & H3 & H4 & H5 & H6 & H7 & H8 & H9 & H10).
  rewrite Hcalc in Hr'. injection Hr' as <-.
  eexists. split; [done|]. simpl. rewrite H10. done.
Qed.

Lemma compute_metrics_report_witness :
  ∃ r, metrics (compute_metrics (λ g, ecount g) (λ _, Fin 1%Qc)
                  (mkCoverObj Examples.joined_pair None None)).1 = Some r
    ∧ length (Conductance r) = len Examples.joined_pair.
Proof.
  destruct (compute_metrics_report (λ g, ecount g) (λ _, Fin 1%Qc)
              (mkCoverObj Examples.joined_pair None None)
              ltac:(solve_wf) ltac:(by vm_compute))
    as (_ & _ & r & Hr & _ & _ & _ & Hc & _).
  exists r. split; [exact Hr|exact Hc].
Defined.

(** X18: when [compute_metrics] raises, the report attached to the cover is
    the one it had before the call (none, or that of an earlier run), while
    the graph has a report attached. *)
Theorem compute_metrics_failure {GraphMetrics : Type}
    (graph_metrics_of : Graph → GraphMetrics)
    (median_of : GraphMetrics → pyfloat)
    (o : @CoverObj GraphMetrics) (e : exn) :
  (compute_metrics graph_metrics_of median_of o).2 = Raise e →
  metrics (compute_metrics graph_metrics_of median_of o).1 = metrics o
  ∧ cover_of (compute_metrics graph_metrics_of median_of o).1 = cover_of o
  ∧ is_Some (graph_metrics (compute_metrics graph_metrics_of median_of o).1).
Proof.
  rewrite compute_metrics_run. set (gm := default _ _).
  destruct (calculators median_of gm (cover_of o)) as [r|e']; simpl; [done|].
  intros _. split; [done|]. split; [done|]. by eexists.
Qed.

Lemma compute_metrics_failure_witness :
  metrics (compute_metrics (λ g, ecount g) (λ _, Fin 1%Qc)
             (mkCoverObj Examples.lone_vertex None None)).1 = None.
Proof.
  apply (compute_metrics_failure (λ g, ecount g) (λ _, Fin 1%Qc)
           (mkCoverObj Examples.lone_vertex None None) ZeroDivisionError).
  by vm_compute.
Defined.

(** ** Directed graphs *)

(** X19: in a directed graph every boundary edge of a cluster starts at a
    vertex of the cluster, which is also the vertex the out-degree fractions
    count it at; an edge that only enters the cluster is not among its
    boundary edges. *)
Theorem directed_boundary_edges (c : Cover) (i : nat) :
  wf_graph (graph c) → is_directed (graph c) = true → i < len c →
  (∀ e, e ∈ boundary_edges c i →
     source e ∈ cluster c i ∧ node_index c i e = source e)
  ∧ (∀ e, source e ∉ cluster c i → e ∉ boundary_edges c i).
Proof.
  intros Hwf Hd Hi.
  assert (∀ e, e ∈ boundary_edges c i →
            source e ∈ cluster c i ∧ node_index c i e = source e) as Hsrc.
  { intros e He. rewrite boundary_edges_closed in He by done.
    apply elem_of_listed_edges in He as (_ & _ & [Hm|[Hu _]]).
    - split; [by apply elem_of_cluster in Hm as [_ ?]|].
      unfold node_index. by rewrite decide_True.
    - congruence. }
  split; [done|]. intros e Hs He. by apply Hs, Hsrc.
Qed.

Lemma directed_boundary_edges_witness :
  mkEdge 0 0 1 ∈ boundary_edges (mkCover (mkGraph 2 [(0, 1)] true) [[0]; [1]]) 0
  ∧ source (mkEdge 0 0 1) ∈ cluster (mkCover (mkGraph 2 [(0, 1)] true) [[0]; [1]]) 0.
Proof.
  assert (mkEdge 0 0 1 ∈ boundary_edges (mkCover (mkGraph 2 [(0, 1)] true) [[0]; [1]]) 0)
    as He by by_evaluation.
  split; [exact He|].
  apply (directed_boundary_edges (mkCover (mkGraph 2 [(0, 1)] true) [[0]; [1]]) 0
           ltac:(solve_wf) eq_refl ltac:(vm_compute; lia)).
  exact He.
Defined.

(** X20: when vertex 0 has an edge and no edge is listed twice in the
    boundary collection of any cluster, every value that
    [maximum_out_degree_fraction] returns lies between 0 and 1. *)
Theorem maximum_out_degree_fraction_bounds (c : Cover) :
  wf_graph (graph c) → degree_of c 0 ≠ 0 →
  (∀ i, i < len c → NoDup (boundary_edges c i)) →
  ∃ rv, maximum_out_degree_fraction c = Ok rv ∧ length rv = len c ∧
    ∀ i, i < len c → ∃ m, rv !! i = Some (Fin m) ∧ (0 ≤ m ≤ 1)%Qc.
Proof.
  intros Hwf Hd Hnd. rewrite maximum_out_degree_fraction_closed by done.
  pose proof (degree_nonzero_in_range c 0 Hwf Hd) as Hn.
  destruct (for_each_total
    (λ i, py_max (ratio_at c i <$> seq 0 (vcount (graph c))))
    (λ i y, ∃ m, y = Fin m ∧ (0 ≤ m ≤ 1)%Qc)
    (seq 0 (len c))) as (rv & Hrv & Hall).
  { intros i [_ Hi]%elem_of_seq.
    destruct (vcount (graph c)) as [|n] eqn:HN; [lia|].
    rewrite <-cons_seq, fmap_cons.
    unfold ratio_at at 1. rewrite decide_True by done. unfold py_max.
    match goal with |- context [fold_left _ ?l (Fin ?x)] =>
      destruct (fold_max_fin l x) as (m & -> & Hin & _) end.
    { apply Forall_fmap, Forall_forall. intros v _. simpl.
      unfold ratio_at. case_decide; eauto. }
    eexists. split; [done|]. exists m. split; [done|].
    assert (∃ v, ratio_at c i v = Fin m) as [v Hv].
    { apply elem_of_cons in Hin as [Hin|Hin].
      - exists 0. unfold ratio_at. by rewrite decide_True.
      - apply list_elem_of_fmap in Hin as (v & -> & _). by exists v. }
    destruct (ratio_at_bounded c i v Hwf Hi (Hnd i Hi)) as [Hnan|(q & Hq & Hq1 & Hq2)].
    - congruence.
    - rewrite Hv in Hq. injection Hq as ->. split; [done|].
      etrans; [apply Hq2|]. case_decide.
      + rewrite of_nat_1. apply Qcle_refl.
      + rewrite of_nat_0. done. }
  exists rv. split; [done|].
  pose proof (Forall2_length _ _ _ Hall) as Hlen. rewrite length_seq in Hlen.
  split; [done|]. intros i Hi.
  destruct (lookup_lt_is_Some_2 rv i) as [y Hy]; [lia|].
  destruct (Forall2_lookup_lr _ _ _ i i y Hall (lookup_seq_lt 0 _ _ Hi) Hy)
    as (m & -> & Hm).
  eauto.
Qed.

Lemma maximum_out_degree_fraction_bounds_witness :
  ∃ rv, maximum_out_degree_fraction Examples.joined_pair = Ok rv
    ∧ length rv = len Examples.joined_pair.
Proof.
  destruct (maximum_out_degree_fraction_bounds Examples.joined_pair)
    as (rv & Hrv & Hlen & _).
  - solve_wf.
  - vm_compute. lia.
  - intros i Hi.
    assert (i = 0 ∨ i = 1) as [-> | ->] by (vm_compute in Hi; lia); by_evaluation.
  - exists rv. split; [exact Hrv|exact Hlen].
Defined.
